(** * explain-with-cats: the streaming proxy and the slide assembler

    A shallow embedding of the two pieces of the repository that carry
    behaviour:

    - [src/api/generate.ts], the edge handler that forwards a prompt to the
      generative API and re-emits every response chunk as a server-sent
      event;
    - the [generate] loop of [src/index.tsx], which reads the event stream,
      cuts it into events, parses each payload and assembles (caption, image)
      slides.

    JavaScript strings are represented by their UTF-8 encoding (a [string]
    of bytes).  The patterns the program searches for are ASCII, so searching
    the encoding finds the same matches as searching the code units. *)

From Stdlib Require Import NArith Strings.Ascii.
From Stdlib Require Strings.String Strings.Byte.
From stdpp Require Import base option list strings gmap.

Set Warnings "-register-all".

Local Open Scope N_scope.
Local Open Scope stdpp_scope.

(** ** Strings: the [String.prototype] methods the client uses *)

Module JSString.

Definition LF : ascii := "010"%char.

(** The two-character separator ['\n\n']. *)
Definition blank_line : string := String LF (String LF "").

(** [s.startsWith(p)]. *)
Definition startsWith (p s : string) : bool := String.prefix p s.

(** [s.split(sep)] for a non-empty separator: the pieces between the
    non-overlapping occurrences of [sep], found from the left.  [skip]
    counts the characters of a separator that was matched and still has to
    be passed over. *)
Fixpoint split_from (sep s : string) (skip : nat) : list string :=
  match s with
  | EmptyString => [""]
  | String c s' =>
      match skip with
      | S k => split_from sep s' k
      | O =>
          if String.prefix sep s
          then "" :: split_from sep s' (String.length sep - 1)
          else match split_from sep s' 0 with
               | piece :: pieces => String c piece :: pieces
               | [] => [String c ""]
               end
      end
  end.

Definition split (sep s : string) : list string := split_from sep s 0.

(** [n] characters dropped from the front. *)
Fixpoint drop (n : nat) (s : string) : string :=
  match n, s with
  | O, _ => s
  | S _, EmptyString => EmptyString
  | S k, String _ s' => drop k s'
  end.

(** [s.replace(pat, rep)] with a string pattern: only the first
    occurrence is replaced.  The replacement used by the client is the
    empty string, so no replacement pattern ([$&] and the like) occurs. *)
Fixpoint replace (pat rep s : string) : string :=
  if String.prefix pat s then rep +:+ drop (String.length pat) s
  else match s with
       | EmptyString => EmptyString
       | String c s' => String c (replace pat rep s')
       end.

(** A byte of the form 10xxxxxx continues a UTF-8 sequence. *)
Definition is_continuation (c : ascii) : bool :=
  let n := Ascii.N_of_ascii c in (128 <=? n) && (n <? 192).

Definition continues (s : string) : bool :=
  match s with
  | String c _ => is_continuation c
  | EmptyString => false
  end.

(** The string iterator yields one string per code point. *)
Fixpoint code_points (s : string) : list string :=
  match s with
  | EmptyString => []
  | String c s' =>
      match code_points s' with
      | cp :: cps =>
          if continues s' then String c cp :: cps
          else String c "" :: cp :: cps
      | [] => [String c ""]
      end
  end.

Fixpoint join (sep : string) (l : list string) : string :=
  match l with
  | [] => ""
  | [s] => s
  | s :: l' => s +:+ sep +:+ join sep l'
  end.

End JSString.

(** ** Values *)

(** What [JSON.parse] returns.  A number is a double; the program never
    computes with one, it can only test it ([if (part.text)]) or turn it into
    a string ([text += part.text]), so a number is kept as exactly these two
    observations: whether it is truthy (neither zero nor NaN) and its
    [Number.prototype.toString] form.  An object keeps its members in source
    order; a later member with the same key shadows an earlier one. *)
Inductive json : Type :=
  | JNull
  | JBool (b : bool)
  | JNum (truthy : bool) (repr : string)
  | JStr (s : string)
  | JArr (items : list json)
  | JObj (members : list (string * json)).

(** A value, or [undefined]. *)
Definition jsval : Type := option json.
Definition undefined : jsval := None.

(** The exceptions the client loop can meet; it only logs them. *)
Inductive exn : Type := SyntaxError | TypeError.

(** The outcome of evaluating an expression. *)
Inductive completion (A : Type) : Type :=
  | Normal (a : A)
  | Throw (e : exn).
Arguments Normal {A} a.
Arguments Throw {A} e.

Global Instance completion_bind : MBind completion :=
  λ A B k c, match c with
             | Normal a => k a
             | Throw e => Throw e
             end.

Module JS.

(** [ToBoolean]. *)
Definition ToBoolean (v : jsval) : bool :=
  match v with
  | None | Some JNull => false
  | Some (JBool b) => b
  | Some (JNum t _) => t
  | Some (JStr s) => negb (String.eqb s "")
  | Some (JArr _) | Some (JObj _) => true
  end.

(** The last member with key [k]. *)
Fixpoint member (k : string) (members : list (string * json)) : jsval :=
  match members with
  | [] => undefined
  | (k', v) :: rest =>
      match member k rest with
      | Some v' => Some v'
      | None => if String.eqb k k' then Some v else undefined
      end
  end.

(** [ToString], as the [+] and [+=] operators and [new Error(x)] apply it
    to an operand.  An array prints as its elements joined by commas, [null]
    elements printing as nothing.  An object is converted by the methods it
    inherits: [valueOf] gives the object back and [toString] gives
    ["[object Object]"].  A member of its own named [toString] shadows the
    inherited method and is no function, so that no method is left that
    gives a primitive value: the conversion throws a [TypeError]. *)
Fixpoint ToString (v : json) : completion string :=
  match v with
  | JNull => Normal "null"
  | JBool true => Normal "true"
  | JBool false => Normal "false"
  | JNum _ repr => Normal repr
  | JStr s => Normal s
  | JArr items =>
      match
        (fix elements (l : list json) : completion (list string) :=
           match l with
           | [] => Normal []
           | x :: rest =>
               match match x with
                     | JNull => Normal ""
                     | _ => ToString x
                     end with
               | Normal piece =>
                   match elements rest with
                   | Normal pieces => Normal (piece :: pieces)
                   | Throw e => Throw e
                   end
               | Throw e => Throw e
               end
           end) items
      with
      | Normal pieces => Normal (JSString.join "," pieces)
      | Throw e => Throw e
      end
  | JObj members =>
      match member "toString" members with
      | Some _ => Throw TypeError
      | None => Normal "[object Object]"
      end
  end.

(** [ToString] of an operand that may be [undefined]. *)
Definition ToString_value (v : jsval) : completion string :=
  match v with
  | Some x => ToString x
  | None => Normal "undefined"
  end.

(** [v.k] for one of the property names the program reads ([candidates],
    [content], [parts], [text], [inlineData], [data], [message]): none of
    them is a property of a primitive wrapper, of [Array.prototype] or of
    [Object.prototype], so only an object's own members can provide it.
    Reading a property of [null] or [undefined] throws. *)
Definition get (v : jsval) (k : string) : completion jsval :=
  match v with
  | None | Some JNull => Throw TypeError
  | Some (JObj members) => Normal (member k members)
  | Some _ => Normal undefined
  end.

(** [v?.k]. *)
Definition get_opt (v : jsval) (k : string) : completion jsval :=
  match v with
  | None | Some JNull => Normal undefined
  | _ => get v k
  end.

(** The values a [for ... of] loop runs over.  Arrays and strings are the
    only iterable values [JSON.parse] can return. *)
Definition iterate (v : jsval) : completion (list json) :=
  match v with
  | Some (JArr items) => Normal items
  | Some (JStr s) => Normal (List.map JStr (JSString.code_points s))
  | _ => Throw TypeError
  end.

(** [v ?? []], then iterated. *)
Definition iterate_or_empty (v : jsval) : completion (list json) :=
  match v with
  | None | Some JNull => Normal []
  | _ => iterate v
  end.

End JS.

(** ** The runtime the program runs on

    Library functions the two source files call but do not define.  Every
    theorem holds for any implementation of them. *)
Class Runtime : Type := {
  (** [JSON.parse]; [None] when it throws a [SyntaxError]. *)
  JSON_parse : string -> option json;
  (** [JSON.stringify] without indentation. *)
  JSON_stringify : json -> string;
  (** [new TextEncoder().encode]. *)
  TextEncoder_encode : string -> list Byte.byte;
  (** [new TextDecoder().decode(value)], a one-shot decode. *)
  TextDecoder_decode : list Byte.byte -> string;
  (** [marked.parse], Markdown to HTML. *)
  marked_parse : string -> string;
  (** The message of the [TypeError] thrown by destructuring [null]. *)
  destructure_null_message : string;
  (** The message of the [TypeError] thrown when an object cannot be
      converted to a primitive value. *)
  cannot_convert_message : string
}.

(** ** The page *)

(** An [<img>] element is a node with an identity: [document.createElement]
    returns a node no one else holds, [img.src = ...] writes its attribute in
    the node store, and [parent.append(node)] moves the node when it already
    has a parent.  A slide is a [div.slide] holding an image node and a
    caption [div]; the caption is kept as the HTML assigned to [innerHTML]. *)
Record slide : Type := {
  slide_image : option nat;
  slide_caption : string
}.

Record document : Type := {
  next_node : nat;
  img_src : gmap nat string;
  slideshow : list slide;
  slideshow_hidden : bool
}.

Module DOM.

(** [document.createElement('img')]: a new node, which has no source. *)
Definition createElement_img (d : document) : nat * document :=
  (next_node d,
   {| next_node := S (next_node d); img_src := delete (next_node d) (img_src d);
      slideshow := slideshow d; slideshow_hidden := slideshow_hidden d |}).

(** [node.src = url]. *)
Definition set_src (node : nat) (url : string) (d : document) : document :=
  {| next_node := next_node d; img_src := <[node := url]> (img_src d);
     slideshow := slideshow d; slideshow_hidden := slideshow_hidden d |}.

(** A node leaves its former parent when it is appended elsewhere. *)
Definition detach (node : nat) (s : slide) : slide :=
  if decide (slide_image s = Some node)
  then {| slide_image := None; slide_caption := slide_caption s |}
  else s.

(** [slideshow.removeAttribute('hidden')]. *)
Definition show_slideshow (d : document) : document :=
  {| next_node := next_node d; img_src := img_src d;
     slideshow := slideshow d; slideshow_hidden := false |}.

(** What the user sees of a slide: the caption and the image source. *)
Definition rendered (d : document) (s : slide) : string * option string :=
  (slide_caption s, slide_image s ≫= λ node, img_src d !! node).

Definition rendered_slides (d : document) : list (string * option string) :=
  rendered d <$> slideshow d.

End DOM.

(** ** The client: the stream loop of [generate] *)

(** The two locals of the loop, [text] and [img], and the page. *)
Record loop_state : Type := {
  text : string;
  img : option nat;
  page : document
}.

Section Client.
Context `{Runtime}.

(** [addSlide(text, image)]: a new [div.slide] with the image and the
    rendered caption, appended to the slideshow. *)
Definition addSlide (caption : string) (image : nat) (d : document) : document :=
  {| next_node := next_node d; img_src := img_src d;
     slideshow := (DOM.detach image <$> slideshow d)
                    ++ [ {| slide_image := Some image;
                            slide_caption := marked_parse caption |} ];
     slideshow_hidden := slideshow_hidden d |}.

(** Lines 150-155: a part with a truthy [text] extends the caption; failing
    that, a part with a truthy [inlineData.data] becomes the pending image,
    a fresh [<img>] whose source is the data URL.  The result is the state
    the lines leave and the exception they end with, if any.  When the text
    cannot be converted to a string, [text +=] throws and assigns nothing.
    When the data cannot, line 154 throws after line 153 has assigned the
    new element to [img]: the element stays pending, without a source. *)
Definition take_fragment (st : loop_state) (part : json) : loop_state * option exn :=
  match JS.get (Some part) "text" with
  | Throw e => (st, Some e)
  | Normal t =>
      if JS.ToBoolean t then
        match JS.ToString_value t with
        | Normal s =>
            ({| text := text st +:+ s; img := img st; page := page st |}, None)
        | Throw e => (st, Some e)
        end
      else
        match (inlineData ← JS.get (Some part) "inlineData";
               JS.get_opt inlineData "data") with
        | Throw e => (st, Some e)
        | Normal data =>
            if JS.ToBoolean data then
              let (node, d) := DOM.createElement_img (page st) in
              match JS.ToString_value data with
              | Normal s =>
                  ({| text := text st; img := Some node;
                      page := DOM.set_src node
                                ("data:image/png;base64," +:+ s) d |}, None)
              | Throw e =>
                  ({| text := text st; img := Some node; page := d |}, Some e)
              end
            else (st, None)
        end
  end.

(** [text && img]. *)
Definition ready (st : loop_state) : option (string * nat) :=
  if negb (String.eqb (text st) "") then
    match img st with
    | Some node => Some (text st, node)
    | None => None
    end
  else None.

(** Lines 157-162: once both are there, the slide is added and both locals
    are reset. *)
Definition emit_if_ready (st : loop_state) : loop_state :=
  match ready st with
  | Some (caption, node) =>
      {| text := ""; img := None;
         page := DOM.show_slideshow (addSlide caption node (page st)) |}
  | None => st
  end.

(** The body of the innermost loop.  The state comes back in every case;
    an exception leaves it as it was when the exception was thrown, and
    skips the check of lines 157-162. *)
Definition process_part (st : loop_state) (part : json) : loop_state * option exn :=
  match take_fragment st part with
  | (st1, None) => (emit_if_ready st1, None)
  | (st1, Some e) => (st1, Some e)
  end.

(** A loop body run over the values of an iterator, stopping at the first
    exception. *)
Fixpoint for_of {A} (body : loop_state -> A -> loop_state * option exn)
    (st : loop_state) (items : list A) : loop_state * option exn :=
  match items with
  | [] => (st, None)
  | x :: rest =>
      match body st x with
      | (st', None) => for_of body st' rest
      | thrown => thrown
      end
  end.

(** [for (const part of candidate.content.parts ?? [])]. *)
Definition process_candidate (st : loop_state) (candidate : json)
    : loop_state * option exn :=
  match (content ← JS.get (Some candidate) "content";
         parts ← JS.get content "parts";
         JS.iterate_or_empty parts) with
  | Normal parts => for_of process_part st parts
  | Throw e => (st, Some e)
  end.

(** [for (const candidate of chunk.candidates)]. *)
Definition process_chunk (st : loop_state) (chunk : json) : loop_state * option exn :=
  match (candidates ← JS.get (Some chunk) "candidates";
         JS.iterate candidates) with
  | Normal candidates => for_of process_candidate st candidates
  | Throw e => (st, Some e)
  end.

(** Lines 145-167: the [try] around one line.  The second component is
    what [catch] hands to [console.error], if anything. *)
Definition process_line (st : loop_state) (line : string) : loop_state * option exn :=
  let jsonString := JSString.replace "data: " "" line in
  match JSON_parse jsonString with
  | None => (st, Some SyntaxError)
  | Some chunk => process_chunk st chunk
  end.

(** Lines 141-142. *)
Definition lines_of (value : list Byte.byte) : list string :=
  let chunkString := TextDecoder_decode value in
  List.filter (JSString.startsWith "data: ")
    (JSString.split JSString.blank_line chunkString).

(** A body whose exceptions are caught and logged, run over a list: the
    loop goes on after an exception.  The log is the second component. *)
Fixpoint for_each {A} (body : loop_state -> A -> loop_state * list exn)
    (st : loop_state) (items : list A) : loop_state * list exn :=
  match items with
  | [] => (st, [])
  | x :: rest =>
      let (st1, log1) := body st x in
      let (st2, log2) := for_each body st1 rest in
      (st2, log1 ++ log2)
  end.

Definition logged (r : loop_state * option exn) : loop_state * list exn :=
  (r.1, option_list r.2).

(** Lines 144-168. *)
Definition process_lines (st : loop_state) (lines : list string)
    : loop_state * list exn :=
  for_each (λ st line, logged (process_line st line)) st lines.

(** One turn of the [while] loop on a value the reader delivered. *)
Definition process_read (st : loop_state) (value : list Byte.byte)
    : loop_state * list exn :=
  process_lines st (lines_of value).

(** Lines 134-169: the loop over everything the reader delivers before
    [done]. *)
Definition stream_loop (st : loop_state) (reads : list (list Byte.byte))
    : loop_state * list exn :=
  for_each process_read st reads.

(** [clearUI], for the slideshow; the other elements it empties are not
    part of the model. *)
Definition clearUI (d : document) : document :=
  {| next_node := next_node d; img_src := img_src d;
     slideshow := []; slideshow_hidden := true |}.

(** Lines 129-130: the locals as the loop starts, on the page as [clearUI]
    left it. *)
Definition initial_state (d : document) : loop_state :=
  {| text := ""; img := None; page := clearUI d |}.

End Client.

(** ** The proxy: [handler] of [src/api/generate.ts] *)

(** What a [catch] clause can receive: an [Error] with its message, or any
    other value. *)
Inductive thrown : Type :=
  | ThrownError (message : string)
  | ThrownOther.

(** What evaluating (and awaiting) an expression inside the [try] block
    comes to. *)
Inductive attempt (A : Type) : Type :=
  | Returns (a : A)
  | Throws (e : thrown).
Arguments Returns {A} a.
Arguments Throws {A} e.

(** A request, as far as the handler looks at it: its method and what
    [await req.json()] gives. *)
Record Request : Type := {
  method : string;
  json_body : attempt json
}.

Inductive Modality : Type := TEXT | IMAGE.

(** The argument of [ai.models.generateContentStream]. *)
Record GenerateContentParameters : Type := {
  model : string;
  contents : string;
  responseModalities : list Modality
}.

(** The async iterable the API call resolves to: the chunks it yields and,
    when the iteration fails, what it throws after them. *)
Record ContentStream : Type := {
  yielded : list json;
  failure : option thrown
}.

Inductive stream_end : Type :=
  | Closed
  | Errored (e : thrown).

Inductive ResponseBody : Type :=
  | TextBody (s : string)
  | StreamBody (enqueued : list (list Byte.byte)) (ending : stream_end).

(** A response: the status (200 unless given), the headers passed to the
    constructor, and the body. *)
Record Response : Type := {
  status : nat;
  headers : list (string * string);
  body : ResponseBody
}.

Section Proxy.
Context `{Runtime}.

(** The model API: what one call with the given argument does. *)
Variable generateContentStream : GenerateContentParameters -> attempt ContentStream.

Definition additionalInstructions : string :=
  String JSString.LF "Use a fun story about lots of tiny cats as a metaphor." +:+
  String JSString.LF "Keep sentences short but conversational, casual, and engaging." +:+
  String JSString.LF "Generate a cute, minimal illustration for each sentence with black ink on white background." +:+
  String JSString.LF "No commentary, just begin your explanation." +:+
  String JSString.LF "Keep going until you're done.".

(** [const {message} = v]. *)
Definition destructure_message (v : json) : attempt jsval :=
  match JS.get (Some v) "message" with
  | Normal m => Returns m
  | Throw _ => Throws (ThrownError destructure_null_message)
  end.

(** The server-sent event written for one chunk (line 52). *)
Definition sse_event (chunk : json) : string :=
  "data: " +:+ JSON_stringify chunk +:+ JSString.blank_line.

(** Lines 46-56: every chunk is enqueued as one event; the stream is
    closed when the iteration ends and errored when it throws. *)
Definition event_stream (result : ContentStream) : ResponseBody :=
  StreamBody ((TextEncoder_encode ∘ sse_event) <$> yielded result)
             (match failure result with
              | None => Closed
              | Some e => Errored e
              end).

(** Lines 65-72. *)
Definition error_response (error : thrown) : Response :=
  let errorMessage :=
    match error with
    | ThrownError message => message
    | ThrownOther => "An unknown error occurred"
    end in
  {| status := 500;
     headers := [("Content-Type", "application/json")];
     body := TextBody
               (JSON_stringify
                  (JObj [("error", JObj [("message", JStr errorMessage)])])) |}.

(** The handler.  The second component lists the calls made to the model
    API, in order. *)
Definition handler (req : Request) : Response * list GenerateContentParameters :=
  if negb (String.eqb (method req) "POST") then
    ({| status := 405; headers := []; body := TextBody "Method Not Allowed" |}, [])
  else
    match json_body req with
    | Throws error => (error_response error, [])
    | Returns parsed =>
        match destructure_message parsed with
        | Throws error => (error_response error, [])
        | Returns message =>
            if negb (JS.ToBoolean message) then
              ({| status := 400; headers := [];
                  body := TextBody "Missing message in request body" |}, [])
            else
              match JS.ToString_value message with
              | Throw _ =>
                  (error_response (ThrownError cannot_convert_message), [])
              | Normal prompt =>
                  let params :=
                    {| model := "gemini-2.5-flash-image-preview";
                       contents := prompt +:+ additionalInstructions;
                       responseModalities := [TEXT; IMAGE] |} in
                  match generateContentStream params with
                  | Throws error => (error_response error, [params])
                  | Returns result =>
                      ({| status := 200;
                          headers := [("Content-Type", "text/event-stream");
                                      ("Cache-Control", "no-cache");
                                      ("Connection", "keep-alive")];
                          body := event_stream result |}, [params])
                  end
              end
        end
    end.

End Proxy.

(** ** A reference runtime

    Executable implementations of the library functions, used to run the
    model on concrete streams.  The decoder is the UTF-8 decoder of the
    Encoding standard.  The JSON reader covers the grammar except for
    fractions, exponents and escaped surrogates, which it rejects; none of
    the streams below contains one. *)
Module Reference.

Module UTF8.

(** The decoder's state: how many continuation bytes are still needed,
    the bytes of the sequence read so far, and the range allowed for the
    next byte. *)
Record decoder : Type := {
  needed : nat;
  seen : list Byte.byte;
  lower : N;
  upper : N
}.

Definition idle : decoder :=
  {| needed := 0; seen := []; lower := 128; upper := 191 |}.

(** U+FFFD, encoded. *)
Definition replacement : list Byte.byte := [Byte.xef; Byte.xbf; Byte.xbd].

Definition between (lo hi n : N) : bool := (lo <=? n) && (n <=? hi).

(** A byte read when no sequence is open. *)
Definition lead (b : Byte.byte) : list Byte.byte * decoder :=
  let n := Byte.to_N b in
  if n <=? 127 then ([b], idle)
  else if between 194 223 n then
    ([], {| needed := 1; seen := [b]; lower := 128; upper := 191 |})
  else if between 224 239 n then
    ([], {| needed := 2; seen := [b];
            lower := if n =? 224 then 160 else 128;
            upper := if n =? 237 then 159 else 191 |})
  else if between 240 244 n then
    ([], {| needed := 3; seen := [b];
            lower := if n =? 240 then 144 else 128;
            upper := if n =? 244 then 143 else 191 |})
  else (replacement, idle).

(** One byte: what is written out and the next state.  A byte that
    cannot continue the open sequence ends it with U+FFFD and is read
    again as a leading byte. *)
Definition step (d : decoder) (b : Byte.byte) : list Byte.byte * decoder :=
  match needed d with
  | O => lead b
  | S k =>
      if between (lower d) (upper d) (Byte.to_N b) then
        match k with
        | O => (seen d ++ [b], idle)
        | S _ => ([], {| needed := k; seen := seen d ++ [b];
                         lower := 128; upper := 191 |})
        end
      else let (out, d') := lead b in (replacement ++ out, d')
  end.

(** The whole input; a sequence left open at the end gives U+FFFD. *)
Fixpoint run (d : decoder) (input : list Byte.byte) : list Byte.byte :=
  match input with
  | [] => match needed d with
          | O => []
          | S _ => replacement
          end
  | b :: rest => let (out, d') := step d b in out ++ run d' rest
  end.

(** A byte order mark at the very start is not part of the text. *)
Definition strip_bom (input : list Byte.byte) : list Byte.byte :=
  match input with
  | Byte.xef :: Byte.xbb :: Byte.xbf :: rest => rest
  | _ => input
  end.

Definition decode (input : list Byte.byte) : string :=
  String.string_of_list_byte (run idle (strip_bom input)).

(** A string is kept in encoded form already. *)
Definition encode (s : string) : list Byte.byte :=
  String.list_byte_of_string s.

End UTF8.

Module JSON.

Definition quote : ascii := "034"%char.
Definition backslash : ascii := "092"%char.

Definition hex_digit (n : N) : ascii :=
  if n <? 10 then ascii_of_N (48 + n) else ascii_of_N (87 + n).

(** How [JSON.stringify] writes one byte of a string. *)
Definition escape (c : ascii) : string :=
  let n := N_of_ascii c in
  if Ascii.eqb c quote then String backslash (String quote "")
  else if Ascii.eqb c backslash then String backslash (String backslash "")
  else if n =? 8 then String backslash "b"
  else if n =? 12 then String backslash "f"
  else if n =? 10 then String backslash "n"
  else if n =? 13 then String backslash "r"
  else if n =? 9 then String backslash "t"
  else if n <? 32 then
    String backslash ("u00" +:+ String (hex_digit (n / 16))
                                 (String (hex_digit (n mod 16)) ""))
  else String c "".

Fixpoint escape_all (s : string) : string :=
  match s with
  | EmptyString => ""
  | String c s' => escape c +:+ escape_all s'
  end.

Definition quoted (s : string) : string :=
  String quote (escape_all s +:+ String quote "").

Fixpoint stringify (v : json) : string :=
  match v with
  | JNull => "null"
  | JBool true => "true"
  | JBool false => "false"
  | JNum _ repr => repr
  | JStr s => quoted s
  | JArr items => "[" +:+ JSString.join "," (List.map stringify items) +:+ "]"
  | JObj members =>
      "{" +:+ JSString.join ","
                (List.map (λ kv, let '(k, x) := kv in
                                 quoted k +:+ ":" +:+ stringify x) members)
          +:+ "}"
  end.

Definition is_ws (c : ascii) : bool :=
  let n := N_of_ascii c in (n =? 32) || (n =? 9) || (n =? 10) || (n =? 13).

Fixpoint skip_ws (s : string) : string :=
  match s with
  | String c s' => if is_ws c then skip_ws s' else s
  | EmptyString => ""
  end.

Definition hex_value (c : ascii) : option N :=
  let n := N_of_ascii c in
  if UTF8.between 48 57 n then Some (n - 48)
  else if UTF8.between 97 102 n then Some (n - 87)
  else if UTF8.between 65 70 n then Some (n - 55)
  else None.

(** The UTF-8 form of a code point of the basic plane that is not a
    surrogate. *)
Definition utf8_of_code (n : N) : option string :=
  if n <? 128 then Some (String (ascii_of_N n) "")
  else if n <? 2048 then
    Some (String (ascii_of_N (192 + n / 64))
            (String (ascii_of_N (128 + n mod 64)) ""))
  else if UTF8.between 55296 57343 n then None
  else
    Some (String (ascii_of_N (224 + n / 4096))
            (String (ascii_of_N (128 + (n / 64) mod 64))
               (String (ascii_of_N (128 + n mod 64)) ""))).

Definition unescape (c : ascii) : option ascii :=
  let n := N_of_ascii c in
  if Ascii.eqb c quote then Some quote
  else if Ascii.eqb c backslash then Some backslash
  else if n =? 47 then Some c
  else if n =? 98 then Some (ascii_of_N 8)
  else if n =? 102 then Some (ascii_of_N 12)
  else if n =? 110 then Some (ascii_of_N 10)
  else if n =? 114 then Some (ascii_of_N 13)
  else if n =? 116 then Some (ascii_of_N 9)
  else None.

(** The rest of a string literal whose opening quote has been read: the
    string and what follows the closing quote. *)
Fixpoint string_body (s : string) : option (string * string) :=
  match s with
  | EmptyString => None
  | String c r =>
      if Ascii.eqb c quote then Some ("", r)
      else if Ascii.eqb c backslash then
        match r with
        | String e r1 =>
            match unescape e with
            | Some ch =>
                '(str, rest) ← string_body r1; Some (String ch str, rest)
            | None =>
                match r1 with
                | String h1 (String h2 (String h3 (String h4 r2))) =>
                    if N_of_ascii e =? 117 then
                      a ← hex_value h1; b ← hex_value h2;
                      c' ← hex_value h3; d ← hex_value h4;
                      enc ← utf8_of_code (4096 * a + 256 * b + 16 * c' + d);
                      '(str, rest) ← string_body r2;
                      Some (enc +:+ str, rest)
                    else None
                | _ => None
                end
            end
        | EmptyString => None
        end
      else if N_of_ascii c <? 32 then None
      else '(str, rest) ← string_body r; Some (String c str, rest)
  end.

Definition is_digit (c : ascii) : bool := UTF8.between 48 57 (N_of_ascii c).

Fixpoint digits (s : string) : string * string :=
  match s with
  | String c s' =>
      if is_digit c then let (ds, rest) := digits s' in (String c ds, rest)
      else ("", s)
  | EmptyString => ("", "")
  end.

(** An integer literal of at most fifteen digits. *)
Definition integer (negative : bool) (s : string) : option (json * string) :=
  let (ds, rest) := digits s in
  match ds with
  | EmptyString => None
  | String "0" EmptyString => Some (JNum false "0", rest)
  | String "0" _ => None
  | _ =>
      if (String.length ds <=? 15)%nat
      then Some (JNum true (if negative then "-" +:+ ds else ds), rest)
      else None
  end.

Definition literal (word : string) (v : json) (s : string) : option (json * string) :=
  if String.prefix word s
  then Some (v, JSString.drop (String.length word) s)
  else None.

Fixpoint value (fuel : nat) (s : string) : option (json * string) :=
  match fuel with
  | O => None
  | S fuel' =>
      match skip_ws s with
      | EmptyString => None
      | String c r as s0 =>
          let n := N_of_ascii c in
          if n =? 110 then literal "null" JNull s0
          else if n =? 116 then literal "true" (JBool true) s0
          else if n =? 102 then literal "false" (JBool false) s0
          else if Ascii.eqb c quote then
            '(str, rest) ← string_body r; Some (JStr str, rest)
          else if n =? 91 then
            match skip_ws r with
            | String c1 r1 as s1 =>
                if N_of_ascii c1 =? 93 then Some (JArr [], r1)
                else '(items, rest) ← elements fuel' s1; Some (JArr items, rest)
            | EmptyString => None
            end
          else if n =? 123 then
            match skip_ws r with
            | String c1 r1 as s1 =>
                if N_of_ascii c1 =? 125 then Some (JObj [], r1)
                else '(kvs, rest) ← members fuel' s1; Some (JObj kvs, rest)
            | EmptyString => None
            end
          else if n =? 45 then integer true r
          else integer false s0
      end
  end
with elements (fuel : nat) (s : string) : option (list json * string) :=
  match fuel with
  | O => None
  | S fuel' =>
      '(v, rest) ← value fuel' s;
      match skip_ws rest with
      | String c r =>
          if N_of_ascii c =? 44 then
            '(vs, rest') ← elements fuel' r; Some (v :: vs, rest')
          else if N_of_ascii c =? 93 then Some ([v], r)
          else None
      | EmptyString => None
      end
  end
with members (fuel : nat) (s : string) : option (list (string * json) * string) :=
  match fuel with
  | O => None
  | S fuel' =>
      match skip_ws s with
      | String q r =>
          if Ascii.eqb q quote then
            '(k, rest) ← string_body r;
            match skip_ws rest with
            | String colon r1 =>
                if N_of_ascii colon =? 58 then
                  '(v, rest1) ← value fuel' r1;
                  match skip_ws rest1 with
                  | String c r2 =>
                      if N_of_ascii c =? 44 then
                        '(kvs, rest2) ← members fuel' r2;
                        Some ((k, v) :: kvs, rest2)
                      else if N_of_ascii c =? 125 then Some ([(k, v)], r2)
                      else None
                  | EmptyString => None
                  end
                else None
            | EmptyString => None
            end
          else None
      | EmptyString => None
      end
  end.

Definition parse (s : string) : option json :=
  '(v, rest) ← value (S (String.length s)) s;
  match skip_ws rest with
  | EmptyString => Some v
  | String _ _ => None
  end.

End JSON.

(** What [marked.parse] makes of one plain paragraph. *)
Definition paragraph (s : string) : string :=
  "<p>" +:+ s +:+ "</p>" +:+ String JSString.LF "".

Definition runtime : Runtime := {|
  JSON_parse := JSON.parse;
  JSON_stringify := JSON.stringify;
  TextEncoder_encode := UTF8.encode;
  TextDecoder_decode := UTF8.decode;
  marked_parse := paragraph;
  destructure_null_message :=
    "Cannot destructure property 'message' of '(intermediate value)' as it is null.";
  cannot_convert_message := "Cannot convert object to primitive value"
|}.

End Reference.

(** ** The loop seen as a fold over fragments

    What the innermost loop body does depends on a part only through one of
    four things: a text fragment, an image fragment, an image whose data
    cannot be converted to a string, or nothing. *)
Inductive fragment : Type :=
  | TextFragment (s : string)
  | ImageFragment (data : string)
  | BrokenImage
  | NoFragment.

Definition data_url (data : string) : string := "data:image/png;base64," +:+ data.

(** What a part leaves in the locals, and the exception that reading it
    throws, if any.  Reading a part that is [null] throws, and so does a
    text that cannot be converted; both leave nothing.  Image data that
    cannot be converted throws too and leaves an image without a source. *)
Definition fragment_of (part : json) : fragment * option exn :=
  match JS.get (Some part) "text" with
  | Throw e => (NoFragment, Some e)
  | Normal t =>
      if JS.ToBoolean t then
        match JS.ToString_value t with
        | Normal s => (TextFragment s, None)
        | Throw e => (NoFragment, Some e)
        end
      else
        match (inlineData ← JS.get (Some part) "inlineData";
               JS.get_opt inlineData "data") with
        | Throw e => (NoFragment, Some e)
        | Normal data =>
            if JS.ToBoolean data then
              match JS.ToString_value data with
              | Normal s => (ImageFragment s, None)
              | Throw e => (BrokenImage, Some e)
              end
            else (NoFragment, None)
        end
  end.

Definition apply_fragment (st : loop_state) (f : fragment) : loop_state :=
  match f with
  | TextFragment s => {| text := text st +:+ s; img := img st; page := page st |}
  | ImageFragment data =>
      let (node, d) := DOM.createElement_img (page st) in
      {| text := text st; img := Some node;
         page := DOM.set_src node (data_url data) d |}
  | BrokenImage =>
      let (node, d) := DOM.createElement_img (page st) in
      {| text := text st; img := Some node; page := d |}
  | NoFragment => st
  end.

(** Whether the check of lines 157-162 is made after the fragment: it is
    skipped after an image whose data could not be converted. *)
Definition checked (f : fragment) : bool :=
  match f with
  | BrokenImage => false
  | _ => true
  end.

(** The pending image as the page shows it: nothing, an image without a
    source, or an image with one. *)
Definition pending (st : loop_state) : option (option string) :=
  (λ node, img_src (page st) !! node) <$> img st.

(** The fragments of the parts a loop gets through, and the exception that
    stopped it, if any. *)
Fixpoint parts_fragments (parts : list json) : list fragment * option exn :=
  match parts with
  | [] => ([], None)
  | part :: rest =>
      match fragment_of part with
      | (f, None) => let (fs, e) := parts_fragments rest in (f :: fs, e)
      | (f, Some e) => (if checked f then [] else [f], Some e)
      end
  end.

Definition candidate_fragments (candidate : json) : list fragment * option exn :=
  match (content ← JS.get (Some candidate) "content";
         parts ← JS.get content "parts";
         JS.iterate_or_empty parts) with
  | Normal parts => parts_fragments parts
  | Throw e => ([], Some e)
  end.

Fixpoint candidates_fragments (candidates : list json) : list fragment * option exn :=
  match candidates with
  | [] => ([], None)
  | candidate :: rest =>
      match candidate_fragments candidate with
      | (fs, None) => let (fs', e) := candidates_fragments rest in (fs ++ fs', e)
      | thrown => thrown
      end
  end.

Definition chunk_fragments (chunk : json) : list fragment * option exn :=
  match (candidates ← JS.get (Some chunk) "candidates";
         JS.iterate candidates) with
  | Normal candidates => candidates_fragments candidates
  | Throw e => ([], Some e)
  end.

(** Whether [for (const candidate of chunk.candidates)] can start. *)
Definition iterable_candidates (chunk : json) : bool :=
  match (candidates ← JS.get (Some chunk) "candidates";
         JS.iterate candidates) with
  | Normal _ => true
  | Throw _ => false
  end.

(** A candidate whose content is there and has no parts: the [parts] member
    is missing, [null] or an empty array. *)
Definition no_parts (candidate : json) : bool :=
  match JS.get (Some candidate) "content" with
  | Normal (Some (JObj members)) =>
      match JS.member "parts" members with
      | None | Some JNull | Some (JArr []) => true
      | Some _ => false
      end
  | _ => false
  end.

(** A chunk record whose candidates carry no part at all. *)
Definition zero_parts_chunk (chunk : json) : bool :=
  match chunk with
  | JObj members =>
      match JS.member "candidates" members with
      | Some (JArr candidates) => forallb no_parts candidates
      | _ => false
      end
  | _ => false
  end.

Section Assembly.
Context `{Runtime}.

Definition step (st : loop_state) (f : fragment) : loop_state :=
  if checked f then emit_if_ready (apply_fragment st f) else apply_fragment st f.

Definition assemble (st : loop_state) (fs : list fragment) : loop_state :=
  foldl step st fs.

(** The loop on chunks that are parsed already. *)
Definition process_chunks (st : loop_state) (chunks : list json)
    : loop_state * list exn :=
  for_each (λ st chunk, logged (process_chunk st chunk)) st chunks.

(** The payloads handed to [JSON.parse], in order. *)
Definition payloads (reads : list (list Byte.byte)) : list string :=
  reads ≫= λ value, JSString.replace "data: " "" <$> lines_of value.

(** The chunks the loop gets out of the stream. *)
Definition parsed_chunks (reads : list (list Byte.byte)) : list json :=
  omap JSON_parse (payloads reads).

(** The fragments the loop gets through, chunk after chunk. *)
Definition chunks_fragments (chunks : list json) : list fragment :=
  chunks ≫= λ chunk, (chunk_fragments chunk).1.

Definition stream_fragments (reads : list (list Byte.byte)) : list fragment :=
  chunks_fragments (parsed_chunks reads).

(** What the proxy writes for a list of chunks, as [handler] enqueues
    it. *)
Definition proxy_events (chunks : list json) : list (list Byte.byte) :=
  (TextEncoder_encode ∘ sse_event) <$> chunks.

(** A read that holds exactly the given events, whole. *)
Definition whole_events (chunks : list json) : list Byte.byte :=
  concat (proxy_events chunks).

(** The text of a list of events. *)
Definition events_text (chunks : list json) : string :=
  foldr (λ chunk rest, sse_event chunk +:+ rest) "" chunks.

End Assembly.

(** ** Segments: what a slide is made of *)

(** The text fragments of a run of fragments, concatenated in order. *)
Fixpoint texts (fs : list fragment) : string :=
  match fs with
  | [] => ""
  | TextFragment s :: rest => s +:+ texts rest
  | _ :: rest => texts rest
  end.

(** The image created last: its data, or nothing when the data could not
    be converted. *)
Fixpoint last_image (fs : list fragment) : option (option string) :=
  match fs with
  | [] => None
  | f :: rest =>
      match last_image rest, f with
      | Some image, _ => Some image
      | None, ImageFragment data => Some (Some data)
      | None, BrokenImage => Some None
      | None, _ => None
      end
  end.

(** The source of an image: the data URL of its data, when it has any. *)
Definition source_of (image : option string) : option string :=
  data_url <$> image.

(** A run of fragments makes a slide when it has some caption text and an
    image, and the check is made after its last fragment. *)
Definition complete (fs : list fragment) : bool :=
  negb (String.eqb (texts fs) "") && bool_decide (is_Some (last_image fs))
  && from_option checked true (last fs).

(** The stream of fragments cut after every fragment that completes a
    slide: the complete runs, and the fragments left over. [cur] is the run
    being read. *)
Fixpoint segments (cur fs : list fragment) : list (list fragment) * list fragment :=
  match fs with
  | [] => ([], cur)
  | f :: rest =>
      if complete (cur ++ [f])
      then let (segs, left) := segments [] rest in ((cur ++ [f]) :: segs, left)
      else segments (cur ++ [f]) rest
  end.

(** The slide a complete run is shown as. *)
Definition slide_of `{Runtime} (seg : list fragment) : string * option string :=
  (marked_parse (texts seg), last_image seg ≫= source_of).

(** A run none of whose proper prefixes is complete. *)
Definition minimal (seg : list fragment) : Prop :=
  ∀ p, p `prefix_of` seg → p ≠ seg → complete p = false.

(** ** Well-formed states

    The image nodes in the slideshow have been allocated; the pending image
    is an allocated node that is in no slide. *)
Record wf (st : loop_state) : Prop := {
  wf_slides : ∀ s node, s ∈ slideshow (page st) → slide_image s = Some node →
              (node < next_node (page st))%nat;
  wf_pending : ∀ node, img st = Some node →
               (node < next_node (page st))%nat
               ∧ ∀ s, s ∈ slideshow (page st) → slide_image s ≠ Some node
}.

(** The state follows the run of fragments read since the last slide. *)
Definition tracks (st : loop_state) (cur : list fragment) : Prop :=
  text st = texts cur ∧ pending st = source_of <$> last_image cur.

(** A run no prefix of which is complete. *)
Definition open_run (cur : list fragment) : Prop :=
  ∀ p, p `prefix_of` cur → complete p = false.

(** The states the loop goes through: the state never changes but in the
    body of the innermost loop. *)
Inductive reachable `{Runtime} (d : document) : loop_state → Prop :=
  | reach_start : reachable d (initial_state d)
  | reach_part st part : reachable d st → reachable d (process_part st part).1.




(** Whether a character occurs in a string. *)
Fixpoint occurs (c : ascii) (s : string) : bool :=
  match s with
  | EmptyString => false
  | String c' s' => Ascii.eqb c c' || occurs c s'
  end.

(** The claim that no payload is lost however the transport cuts the bytes
    the proxy wrote into reads. *)
Definition survives_any_partition `{Runtime} : Prop :=
  ∀ chunks reads,
    concat reads = concat (proxy_events chunks) → parsed_chunks reads = chunks.

(** The argument of the one call the handler makes for a message, given
    as the string it converts to. *)
Definition call_for (message : string) : GenerateContentParameters :=
  {| model := "gemini-2.5-flash-image-preview";
     contents := message +:+ additionalInstructions;
     responseModalities := [TEXT; IMAGE] |}.

(** The message a [catch] clause reports for what it caught. *)
Definition reported (error : thrown) : string :=
  match error with
  | ThrownError message => message
  | ThrownOther => "An unknown error occurred"
  end.

(** ** Sample data *)
Module Example.

Definition blank : document :=
  {| next_node := 0; img_src := ∅; slideshow := []; slideshow_hidden := true |}.

Definition text_part (s : string) : json := JObj [("text", JStr s)].

Definition image_part (data : string) : json :=
  JObj [("inlineData", JObj [("mimeType", JStr "image/png"); ("data", JStr data)])].

(** A chunk with one candidate that carries the given parts. *)
Definition chunk_of (parts : list json) : json :=
  JObj [("candidates",
         JArr [JObj [("content", JObj [("parts", JArr parts); ("role", JStr "model")])]])].

(** The state of the loop once it has read the caption of a first slide. *)
Definition after_caption : loop_state :=
  (process_part (H := Reference.runtime) (initial_state blank) (text_part "Once")).1.

(** The state of the loop once it has read an image and no caption. *)
Definition after_image : loop_state :=
  (process_part (H := Reference.runtime) (initial_state blank) (image_part "AAAA")).1.

(** A part whose image data is an object with a member named [toString]:
    it cannot be converted to a string. *)
Definition broken_image : json :=
  JObj [("inlineData", JObj [("data", JObj [("toString", JNum true "1")])])].

(** The state of the loop once it has read the caption of a first slide and
    then the image that cannot be converted. *)
Definition after_broken_image : loop_state :=
  (process_part (H := Reference.runtime) after_caption broken_image).1.

(** The state of the loop once it has shown a first slide. *)
Definition after_slide : loop_state :=
  (process_part (H := Reference.runtime) after_caption (image_part "AAAA")).1.

(** Two chunks that make a second slide, as the proxy writes them. *)
Definition more_reads : list (list Byte.byte) :=
  proxy_events (H := Reference.runtime)
    [chunk_of [image_part "BBBB"]; chunk_of [text_part "Twice"]].

(** A model API that answers every call with the same two chunks. *)
Definition two_chunks (params : GenerateContentParameters) : attempt ContentStream :=
  Returns {| yielded := [chunk_of [text_part "Once"]; chunk_of [image_part "AAAA"]];
             failure := None |}.

(** A model API that refuses every call. *)
Definition refusing (params : GenerateContentParameters) : attempt ContentStream :=
  Throws (ThrownError "quota exceeded").

Definition ask (topic : string) : Request :=
  {| method := "POST"; json_body := Returns (JObj [("message", JStr topic)]) |}.

(** A POST whose message is an object that cannot be converted to a
    string. *)
Definition ask_object : Request :=
  {| method := "POST";
     json_body := Returns (JObj [("message", JObj [("toString", JNum true "1")])]) |}.

(** A POST whose body is the JSON text [null]. *)
Definition null_body : Request :=
  {| method := "POST"; json_body := Returns JNull |}.

(** One chunk that makes a slide by itself. *)
Definition slide_chunk : json := chunk_of [text_part "Once"; image_part "AAAA"].

(** The event of [slide_chunk] as the proxy writes it, and the same bytes
    delivered in two reads, cut inside the payload. *)
Definition whole_read : list (list Byte.byte) :=
  proxy_events (H := Reference.runtime) [slide_chunk].

Definition cut_reads : list (list Byte.byte) :=
  [take 24 (concat whole_read); drop 24 (concat whole_read)].

End Example.

From stdpp Require Import pretty.

(** ** Counting fragments *)

(** The images of a run, those without a source too. *)
Fixpoint images (fs : list fragment) : nat :=
  match fs with
  | [] => 0
  | ImageFragment _ :: rest | BrokenImage :: rest => S (images rest)
  | _ :: rest => images rest
  end.

(** The text fragments of a run that are not empty. *)
Fixpoint captions (fs : list fragment) : nat :=
  match fs with
  | [] => 0
  | TextFragment s :: rest =>
      if String.eqb s "" then captions rest else S (captions rest)
  | _ :: rest => captions rest
  end.

(** A chunk record with the given candidates and nothing else. *)
Definition candidates_chunk (candidates : list json) : json :=
  JObj [("candidates", JArr candidates)].

(** ** The rest of the page

    The elements [generate] touches besides the slideshow: the list of turns
    ([#output]), the container of the download button ([#actions]), the
    error box ([#error]) and the prompt ([#input]).  Event handlers run one
    after the other; two runs of [generate] that overlap in time are not
    modelled. *)
Record button : Type := {
  textContent : string;
  disabled : bool
}.

Record ui : Type := {
  dom : document;
  output : list string;
  actions : list button;
  error_text : string;
  error_hidden : bool;
  input_value : string;
  input_disabled : bool;
  input_focused : bool
}.

(** Library behaviour the rest of [src/index.tsx] relies on. *)
Class Platform : Type := {
  (** [String.prototype.trim]. *)
  trim : string → string;
  (** The message of the [TypeError] with which a body that has been read
      refuses to be read again. *)
  body_used_message : string;
  (** The message of the [SyntaxError] of [req.json()] on a given text. *)
  syntax_error_message : string → string;
  (** The status text that comes with a status. *)
  reason_phrase : nat → string;
  (** The message of the error a reader gets when the server errored the
      stream. *)
  connection_lost_message : string
}.

Module UI.

(** [setLoading]. *)
Definition setLoading (isLoading : bool) (u : ui) : ui :=
  {| dom := dom u; output := output u; actions := actions u;
     error_text := error_text u; error_hidden := error_hidden u;
     input_value := input_value u; input_disabled := isLoading;
     input_focused := input_focused u |}.

(** [clearUI], whole. *)
Definition clearUI (u : ui) : ui :=
  {| dom := clearUI (dom u); output := []; actions := [];
     error_text := ""; error_hidden := true;
     input_value := input_value u; input_disabled := input_disabled u;
     input_focused := input_focused u |}.

(** [showError]. *)
Definition showError (message : string) (u : ui) : ui :=
  {| dom := dom u; output := output u; actions := actions u;
     error_text := "Something went wrong: " +:+ message; error_hidden := false;
     input_value := input_value u; input_disabled := input_disabled u;
     input_focused := input_focused u |}.

(** The button [createDownloadButton] makes. *)
Definition downloadBtn : button :=
  {| textContent := "Download as PDF"; disabled := false |}.

(** [createDownloadButton]. *)
Definition createDownloadButton (u : ui) : ui :=
  {| dom := dom u; output := output u; actions := actions u ++ [downloadBtn];
     error_text := error_text u; error_hidden := error_hidden u;
     input_value := input_value u; input_disabled := input_disabled u;
     input_focused := input_focused u |}.

(** Lines 97-101: the user's turn is appended to the output and the prompt
    is emptied. *)
Definition show_turn (html : string) (u : ui) : ui :=
  {| dom := dom u; output := output u ++ [html]; actions := actions u;
     error_text := error_text u; error_hidden := error_hidden u;
     input_value := ""; input_disabled := input_disabled u;
     input_focused := input_focused u |}.

(** The page with the slideshow as the loop left it. *)
Definition with_dom (d : document) (u : ui) : ui :=
  {| dom := d; output := output u; actions := actions u;
     error_text := error_text u; error_hidden := error_hidden u;
     input_value := input_value u; input_disabled := input_disabled u;
     input_focused := input_focused u |}.

(** [userInput.focus()]. *)
Definition focus (u : ui) : ui :=
  {| dom := dom u; output := output u; actions := actions u;
     error_text := error_text u; error_hidden := error_hidden u;
     input_value := input_value u; input_disabled := input_disabled u;
     input_focused := true |}.


End UI.

(** ** What [fetch] gives the client *)
Module Fetch.

Record Request : Type := {
  url : string;
  method : string;
  headers : list (string * string);
  body : string
}.

(** A body: the values its reader delivers and, when reading fails, the
    message of the error it fails with after them. *)
Record Body : Type := {
  delivered : list (list Byte.byte);
  read_failure : option string
}.

(** A response that has not been read yet; [body] is [None] for a null
    body. *)
Record Response : Type := {
  ok : bool;
  status : nat;
  statusText : string;
  body_of : option Body
}.

End Fetch.

Section Page.
Context `{Runtime} `{Platform}.

(** [await response.json()] on a response not read yet: the body is read to
    its end, decoded and parsed.  A null body reads as no bytes. *)
Definition response_json (response : Fetch.Response) : attempt json :=
  let parse (bytes : list Byte.byte) : attempt json :=
    let s := TextDecoder_decode bytes in
    match JSON_parse s with
    | Some v => Returns v
    | None => Throws (ThrownError (syntax_error_message s))
    end in
  match Fetch.body_of response with
  | None => parse []
  | Some b =>
      match Fetch.read_failure b with
      | Some message => Throws (ThrownError message)
      | None => parse (concat (Fetch.delivered b))
      end
  end.

(** [await response.text()] once [response.json()] has been called: a body
    that is not null has been read and cannot be read again. *)
Definition response_text_again (response : Fetch.Response) : attempt string :=
  match Fetch.body_of response with
  | None => Returns (TextDecoder_decode [])
  | Some _ => Throws (ThrownError body_used_message)
  end.

(** [new Error(errorMessage)] thrown (line 120): the message is converted
    to a string, and when that throws, the [TypeError] is what comes out. *)
Definition new_Error (errorMessage : json) : thrown :=
  match JS.ToString errorMessage with
  | Normal message => ThrownError message
  | Throw _ => ThrownError cannot_convert_message
  end.

(** Lines 110-120: what is thrown for a response that is not ok, the
    [Error] of line 120 or what the [catch] clause of line 115 lets out. *)
Definition failed_response (response : Fetch.Response) : thrown :=
  let errorMessage :=
    "Request failed with status " +:+ pretty (Fetch.status response)
      +:+ " - " +:+ Fetch.statusText response in
  let caught : thrown :=
    match response_text_again response with
    | Returns textError =>
        ThrownError (if String.eqb textError "" then errorMessage else textError)
    | Throws e => e
    end in
  match response_json response with
  | Returns err =>
      match JS.get (Some err) "error" with
      | Normal error =>
          match JS.get_opt error "message" with
          | Normal (Some m) =>
              if JS.ToBoolean (Some m) then new_Error m
              else ThrownError errorMessage
          | Normal None => ThrownError errorMessage
          | Throw _ => caught
          end
      | Throw _ => caught
      end
  | Throws _ => caught
  end.

(** [e.message] in a [catch] clause, for what the page can catch: errors
    carry their message. *)
Definition message_of (e : thrown) : string :=
  match e with
  | ThrownError message => message
  | ThrownOther => "undefined"
  end.

(** The request of lines 103-107. *)
Definition request_for (message : string) : Fetch.Request :=
  {| Fetch.url := "/api/generate";
     Fetch.method := "POST";
     Fetch.headers := [("Content-Type", "application/json")];
     Fetch.body := JSON_stringify (JObj [("message", JStr message)]) |}.

(** Lines 96-174, the [try] block: the page it leaves and what it throws,
    if anything. *)
Definition generate_try (message : string)
    (fetch : Fetch.Request → attempt Fetch.Response) (u : ui)
    : ui * option thrown :=
  let u := UI.show_turn (marked_parse message) u in
  match fetch (request_for message) with
  | Throws e => (u, Some e)
  | Returns response =>
      if negb (Fetch.ok response) then (u, Some (failed_response response))
      else
        match Fetch.body_of response with
        | None => (u, Some (ThrownError "Response body is empty."))
        | Some b =>
            let st := (stream_loop {| text := ""; img := None; page := dom u |}
                         (Fetch.delivered b)).1 in
            let u := UI.with_dom (page st) u in
            match Fetch.read_failure b with
            | Some e => (u, Some (ThrownError e))
            | None =>
                (match slideshow (dom u) with
                 | [] => u
                 | _ :: _ => UI.createDownloadButton u
                 end, None)
            end
        end
  end.

(** [generate]. *)
Definition generate (message : string)
    (fetch : Fetch.Request → attempt Fetch.Response) (u : ui) : ui :=
  let u := UI.clearUI (UI.setLoading true u) in
  let (u, thrown) := generate_try message fetch u in
  let u := match thrown with
           | Some e => UI.showError (message_of e) u
           | None => u
           end in
  UI.focus (UI.setLoading false u).




End Page.

(** ** From the page to the proxy and back

    The page posts to [/api/generate], where the handler runs.  The request
    reaches the handler with the body the page wrote; the answer reaches the
    page with every read holding what the handler enqueued at once. *)
Section Network.
Context `{Runtime} `{Platform}.

(** The request as the handler sees it: [req.method] and [req.json()]. *)
Definition received (r : Fetch.Request) : Request :=
  {| method := Fetch.method r;
     json_body :=
       let s := TextDecoder_decode (TextEncoder_encode (Fetch.body r)) in
       match JSON_parse s with
       | Some v => Returns v
       | None => Throws (ThrownError (syntax_error_message s))
       end |}.

(** The answer as the page gets it. *)
Definition answered (r : Response) : Fetch.Response :=
  {| Fetch.ok := (200 <=? status r)%nat && (status r <=? 299)%nat;
     Fetch.status := status r;
     Fetch.statusText := reason_phrase (status r);
     Fetch.body_of :=
       Some match body r with
            | TextBody s =>
                {| Fetch.delivered := [TextEncoder_encode s];
                   Fetch.read_failure := None |}
            | StreamBody enqueued Closed =>
                {| Fetch.delivered := enqueued; Fetch.read_failure := None |}
            | StreamBody enqueued (Errored _) =>
                {| Fetch.delivered := enqueued;
                   Fetch.read_failure := Some connection_lost_message |}
            end |}.

(** [fetch], served by the handler in front of a model API. *)
Definition through_proxy
    (api : GenerateContentParameters → attempt ContentStream)
    (r : Fetch.Request) : attempt Fetch.Response :=
  Returns (answered (handler api (received r)).1).

End Network.

(** ** The theme

    The class list of the root element and the local storage.  Writing to
    the storage is taken to succeed. *)
Record theme_state : Type := {
  classList : gset string;
  localStorage : gmap string string
}.

(** [applyTheme]. *)
Definition applyTheme (theme : string) (s : theme_state) : theme_state :=
  {| classList := if String.eqb theme "dark"
                  then {["dark-theme"]} ∪ classList s
                  else classList s ∖ {["dark-theme"]};
     localStorage := <["theme" := theme]> (localStorage s) |}.

(** The [click] listener of the theme toggle (lines 28-31). *)
Definition on_theme_toggle (s : theme_state) : theme_state :=
  let currentTheme :=
    if decide ("dark-theme" ∈ classList s) then "dark" else "light" in
  applyTheme (if String.eqb currentTheme "light" then "dark" else "light") s.

(** Lines 34-40, run when the page loads; [prefersDark] is what the media
    query says. *)
Definition load_theme (prefersDark : bool) (s : theme_state) : theme_state :=
  let savedTheme := localStorage s !! "theme" in
  match savedTheme with
  | Some saved =>
      if negb (String.eqb saved "") then applyTheme saved s
      else applyTheme (if prefersDark then "dark" else "light") s
  | None => applyTheme (if prefersDark then "dark" else "light") s
  end.

(** Whether the page is shown dark. *)
Definition is_dark (s : theme_state) : bool :=
  bool_decide ("dark-theme" ∈ classList s).

(** What a user can see of the page. *)
Definition visible (u : ui)
    : list (string * option string) * bool * list string * list button
      * (string * bool) * (string * bool * bool) :=
  (DOM.rendered_slides (dom u), slideshow_hidden (dom u), output u, actions u,
   (error_text u, error_hidden u),
   (input_value u, input_disabled u, input_focused u)).

(** ** More sample data *)
Module Sample.

Definition is_space (c : ascii) : bool :=
  let n := N_of_ascii c in ((n =? 32) || ((9 <=? n) && (n <=? 13)))%N.

Fixpoint trim_start (s : string) : string :=
  match s with
  | String c s' => if is_space c then trim_start s' else s
  | EmptyString => ""
  end.

Fixpoint trim_end (s : string) : string :=
  match s with
  | String c s' =>
      match trim_end s' with
      | EmptyString => if is_space c then "" else String c ""
      | rest => String c rest
      end
  | EmptyString => ""
  end.

(** A platform whose [trim] removes the ASCII white space; the samples
    hold no other. *)
Definition browser : Platform := {|
  trim := λ s, trim_end (trim_start s);
  body_used_message := "Body has already been consumed.";
  syntax_error_message := λ _, "Unexpected token";
  reason_phrase := λ status,
    if (status =? 200)%nat then "OK"
    else if (status =? 400)%nat then "Bad Request"
    else if (status =? 405)%nat then "Method Not Allowed"
    else if (status =? 500)%nat then "Internal Server Error"
    else "";
  connection_lost_message := "network error"
|}.

Definition page0 : ui :=
  {| dom := Example.blank; output := []; actions := [];
     error_text := ""; error_hidden := true;
     input_value := "gravity"; input_disabled := false; input_focused := true |}.

(** A response with the given status and text. *)
Definition text_response (status : nat) (s : string) : Fetch.Response :=
  {| Fetch.ok := (200 <=? status)%nat && (status <=? 299)%nat;
     Fetch.status := status;
     Fetch.statusText := reason_phrase (Platform := browser) status;
     Fetch.body_of := Some {| Fetch.delivered := [Reference.UTF8.encode s];
                              Fetch.read_failure := None |} |}.

(** The answer the proxy gives when the model API refuses. *)
Definition refused : Fetch.Response :=
  text_response 500
    (Reference.JSON.stringify
       (JObj [("error", JObj [("message", JStr "quota exceeded")])])).

(** An answer whose error message is an object that cannot be converted to
    a string. *)
Definition odd_error : Fetch.Response :=
  text_response 500
    (Reference.JSON.stringify
       (JObj [("error", JObj [("message", JObj [("toString", JNum true "1")])])])).

(** The answer the proxy gives to a request without message. *)
Definition missing_message : Fetch.Response :=
  text_response 400 "Missing message in request body".

(** A first visit: nothing stored, no class on the root element. *)
Definition first_visit : theme_state :=
  {| classList := ∅; localStorage := ∅ |}.

(** An answer whose stream breaks after the event of one slide. *)
Definition broken_stream : Fetch.Response :=
  {| Fetch.ok := true; Fetch.status := 200; Fetch.statusText := "OK";
     Fetch.body_of := Some {| Fetch.delivered := Example.whole_read;
                              Fetch.read_failure := Some "network error" |} |}.

(** A read that holds a comment line and no event. *)
Definition keep_alive : list Byte.byte :=
  Reference.UTF8.encode (": keep-alive" +:+ JSString.blank_line).

(** A candidate the model ended without any content. *)
Definition blocked : json := JObj [("finishReason", JStr "SAFETY")].

Definition candidate_of (parts : list json) : json :=
  JObj [("content", JObj [("parts", JArr parts)])].

(** A model API whose stream yields one chunk and then fails. *)
Definition failing_midway (params : GenerateContentParameters)
    : attempt ContentStream :=
  Returns {| yielded := [Example.chunk_of [Example.text_part "Once"]];
             failure := Some (ThrownError "connection reset") |}.

Definition get_request : Request :=
  {| method := "GET"; json_body := Throws ThrownOther |}.

(** A POST whose body is the JSON text of an empty object. *)
Definition empty_object : Request :=
  {| method := "POST"; json_body := Returns (JObj []) |}.

End Sample.

(** * Properties *)

(** ** The loop is a fold over the fragments it gets through *)

Section Fold.
Context `{Runtime}.

Lemma take_fragment_spec st part :
  take_fragment st part =
    (apply_fragment st (fragment_of part).1, (fragment_of part).2).
Proof.
  unfold take_fragment, fragment_of, mbind, completion_bind.
  destruct (JS.get (Some part) "text") as [t|e]; [|done].
  destruct (JS.ToBoolean t).
  { by destruct (JS.ToString_value t). }
  destruct (JS.get (Some part) "inlineData") as [i|e]; [|done].
  destruct (JS.get_opt i "data") as [d|e]; [|done].
  destruct (JS.ToBoolean d); [|done].
  by destruct (JS.ToString_value d).
Qed.

(** The check is skipped exactly at the parts that throw. *)
Lemma fragment_of_checked part :
  match fragment_of part with
  | (f, None) => checked f = true
  | (f, Some _) => f = NoFragment ∨ f = BrokenImage
  end.
Proof.
  unfold fragment_of, mbind, completion_bind.
  destruct (JS.get (Some part) "text") as [t|e]; [|by left].
  destruct (JS.ToBoolean t).
  { destruct (JS.ToString_value t); [done|by left]. }
  destruct (JS.get (Some part) "inlineData") as [i|e]; [|by left].
  destruct (JS.get_opt i "data") as [d|e]; [|by left].
  destruct (JS.ToBoolean d); [|done].
  destruct (JS.ToString_value d); [done|by right].
Qed.

Lemma process_part_spec st part :
  process_part st part =
    match fragment_of part with
    | (f, None) => (step st f, None)
    | (f, Some e) => (apply_fragment st f, Some e)
    end.
Proof.
  unfold process_part. rewrite take_fragment_spec.
  pose proof (fragment_of_checked part) as Hchecked.
  destruct (fragment_of part) as [f [e|]]; simpl; [done|].
  unfold step. by rewrite Hchecked.
Qed.

Lemma assemble_app st fs1 fs2 :
  assemble st (fs1 ++ fs2) = assemble (assemble st fs1) fs2.
Proof. apply foldl_app. Qed.

Lemma for_of_parts st parts :
  for_of process_part st parts =
    (assemble st (parts_fragments parts).1, (parts_fragments parts).2).
Proof.
  revert st. induction parts as [|part rest IH]; intros st; simpl; [done|].
  rewrite process_part_spec.
  pose proof (fragment_of_checked part) as Hchecked.
  destruct (fragment_of part) as [f [e|]].
  - by destruct Hchecked as [-> | ->].
  - rewrite IH. by destruct (parts_fragments rest).
Qed.

Lemma process_candidate_spec st candidate :
  process_candidate st candidate =
    (assemble st (candidate_fragments candidate).1,
     (candidate_fragments candidate).2).
Proof.
  unfold process_candidate, candidate_fragments.
  destruct (_ ≫= _) as [parts|e]; [apply for_of_parts|done].
Qed.

Lemma for_of_candidates st candidates :
  for_of process_candidate st candidates =
    (assemble st (candidates_fragments candidates).1,
     (candidates_fragments candidates).2).
Proof.
  revert st. induction candidates as [|c rest IH]; intros st; simpl; [done|].
  rewrite process_candidate_spec.
  destruct (candidate_fragments c) as [fs [e|]]; simpl; [done|].
  rewrite IH. destruct (candidates_fragments rest); simpl.
  by rewrite assemble_app.
Qed.

Lemma process_chunk_spec st chunk :
  process_chunk st chunk =
    (assemble st (chunk_fragments chunk).1, (chunk_fragments chunk).2).
Proof.
  unfold process_chunk, chunk_fragments.
  destruct (_ ≫= _) as [cs|e]; [apply for_of_candidates|done].
Qed.

Lemma for_each_cons {A} (body : loop_state → A → loop_state * list exn) st x xs :
  (for_each body st (x :: xs)).1 = (for_each body (body st x).1 xs).1.
Proof.
  simpl. destruct (body st x) as [st1 log1]. simpl.
  by destruct (for_each body st1 xs).
Qed.

Lemma for_each_app {A} (body : loop_state → A → loop_state * list exn) st xs ys :
  (for_each body st (xs ++ ys)).1 = (for_each body (for_each body st xs).1 ys).1.
Proof.
  revert st. induction xs as [|x xs IH]; intros st; [done|].
  rewrite <- app_comm_cons, !for_each_cons. apply IH.
Qed.

Lemma process_chunks_cons st chunk chunks :
  (process_chunks st (chunk :: chunks)).1 =
    (process_chunks (process_chunk st chunk).1 chunks).1.
Proof. unfold process_chunks. by rewrite for_each_cons. Qed.

Lemma process_chunks_spec st chunks :
  (process_chunks st chunks).1 = assemble st (chunks_fragments chunks).
Proof.
  revert st. induction chunks as [|c rest IH]; intros st; [done|].
  rewrite process_chunks_cons, IH, process_chunk_spec.
  unfold chunks_fragments. simpl. by rewrite assemble_app.
Qed.

Lemma process_lines_spec st lines :
  (process_lines st lines).1 =
    (process_chunks st
       (omap JSON_parse (JSString.replace "data: " "" <$> lines))).1.
Proof.
  revert st. induction lines as [|l rest IH]; intros st; [done|].
  unfold process_lines. rewrite for_each_cons.
  fold (process_lines (logged (process_line st l)).1 rest).
  rewrite IH, fmap_cons. unfold process_line. simpl.
  destruct (JSON_parse _) as [chunk|]; [|done].
  by rewrite process_chunks_cons.
Qed.

Lemma stream_loop_chunks st reads :
  (stream_loop st reads).1 = (process_chunks st (parsed_chunks reads)).1.
Proof.
  revert st. induction reads as [|value rest IH]; intros st; [done|].
  unfold stream_loop. rewrite for_each_cons.
  fold (stream_loop (process_read st value).1 rest).
  rewrite IH. unfold process_read. rewrite process_lines_spec.
  unfold parsed_chunks, payloads. simpl. rewrite omap_app.
  unfold process_chunks. by rewrite for_each_app.
Qed.

Lemma stream_loop_spec st reads :
  (stream_loop st reads).1 = assemble st (stream_fragments reads).
Proof. by rewrite stream_loop_chunks, process_chunks_spec. Qed.

End Fold.

(** ** Strings *)

Lemma append_cons c s t : String c s +:+ t = String c (s +:+ t).
Proof. reflexivity. Qed.

Lemma append_nil_r s : s +:+ "" = s.
Proof. induction s as [|c s IH]; [done|]. by rewrite append_cons, IH. Qed.

Lemma append_assoc s t u : (s +:+ t) +:+ u = s +:+ t +:+ u.
Proof. induction s as [|c s IH]; [done|]. by rewrite !append_cons, IH. Qed.

Lemma append_empty s t : s +:+ t = "" → s = "" ∧ t = "".
Proof. destruct s; [done|]. rewrite append_cons. done. Qed.

(** ** Segments *)

Lemma texts_app fs1 fs2 : texts (fs1 ++ fs2) = texts fs1 +:+ texts fs2.
Proof.
  induction fs1 as [|[s| | |] fs1 IH]; simpl; [done| |done..].
  by rewrite IH, append_assoc.
Qed.

Lemma last_image_app fs1 fs2 :
  last_image (fs1 ++ fs2) =
    match last_image fs2 with
    | Some data => Some data
    | None => last_image fs1
    end.
Proof.
  induction fs1 as [|f fs1 IH]; simpl.
  - by destruct (last_image fs2).
  - rewrite IH. by destruct (last_image fs2).
Qed.

(** ** Well-formed states *)

Section Invariant.
Context `{Runtime}.

Lemma wf_initial d : wf (initial_state d).
Proof. split; simpl; [intros s node Hs|done]. by apply elem_of_nil in Hs. Qed.

Lemma wf_apply_fragment st f : wf st → wf (apply_fragment st f).
Proof.
  intros [Hslides Hpending].
  destruct f as [s|data| |]; [by split| | |by split]; split; simpl.
  - intros s node Hs Himg. specialize (Hslides s node Hs Himg). lia.
  - intros node [= <-]. split; [lia|].
    intros s Hs Himg. specialize (Hslides s _ Hs Himg). lia.
  - intros s node Hs Himg. specialize (Hslides s node Hs Himg). lia.
  - intros node [= <-]. split; [lia|].
    intros s Hs Himg. specialize (Hslides s _ Hs Himg). lia.
Qed.

Lemma ready_Some st caption node :
  ready st = Some (caption, node) ↔
    text st ≠ "" ∧ caption = text st ∧ img st = Some node.
Proof.
  unfold ready. destruct (String.eqb_spec (text st) "") as [Heq|Hne]; simpl.
  - split; [done|]. by intros [? _].
  - destruct (img st) as [n|].
    + split; [by intros [= <- <-]|by intros (_ & -> & [= ->])].
    + split; [done|by intros (_ & _ & ?)].
Qed.

Lemma ready_None st : ready st = None ↔ text st = "" ∨ img st = None.
Proof.
  unfold ready. destruct (String.eqb_spec (text st) "") as [Heq|Hne]; simpl.
  - split; [by left|done].
  - destruct (img st) as [n|].
    + split; [done|by intros [?|?]].
    + split; [by right|done].
Qed.

Lemma detach_other node s : slide_image s ≠ Some node → DOM.detach node s = s.
Proof. intros Hne. unfold DOM.detach. by case_decide. Qed.

Lemma detach_absent node (l : list slide) :
  (∀ s, s ∈ l → slide_image s ≠ Some node) → DOM.detach node <$> l = l.
Proof.
  induction l as [|s l IH]; intros Hfresh; [done|].
  rewrite fmap_cons. f_equal.
  - apply detach_other, Hfresh. by left.
  - apply IH. intros s' Hs'. apply Hfresh. by right.
Qed.

Lemma detach_pending st node :
  wf st → img st = Some node →
  DOM.detach node <$> slideshow (page st) = slideshow (page st).
Proof.
  intros [_ Hpending] Himg. destruct (Hpending _ Himg) as (_ & Hfresh).
  by apply detach_absent.
Qed.

Lemma wf_emit st : wf st → wf (emit_if_ready st).
Proof.
  intros Hwf. unfold emit_if_ready.
  destruct (ready st) as [[caption node]|] eqn:Hready; [|done].
  apply ready_Some in Hready as (_ & _ & Himg).
  destruct Hwf as [Hslides Hpending].
  destruct (Hpending _ Himg) as (Hlt & _).
  split; simpl; [|done].
  intros s n [Hs| ->%list_elem_of_singleton]%elem_of_app Hn.
  - apply list_elem_of_fmap in Hs as (s0 & -> & Hs0).
    unfold DOM.detach in Hn. case_decide; [done|]. eauto.
  - simpl in Hn. by simplify_eq.
Qed.

Lemma wf_step st f : wf st → wf (step st f).
Proof.
  intros. unfold step.
  destruct (checked f); [apply wf_emit|]; by apply wf_apply_fragment.
Qed.

Lemma wf_assemble st fs : wf st → wf (assemble st fs).
Proof.
  revert st. induction fs as [|f fs IH]; intros st Hwf; [done|].
  simpl. by apply IH, wf_step.
Qed.

(** *** What happens to the slides already shown *)

Lemma rendered_apply_fragment st f :
  wf st →
  DOM.rendered_slides (page (apply_fragment st f)) = DOM.rendered_slides (page st).
Proof.
  intros [Hslides _]. destruct f as [s|data| |]; [done| | |done];
    unfold DOM.rendered_slides; simpl; apply list_fmap_ext;
    intros i s Hs%list_elem_of_lookup_2; unfold DOM.rendered; simpl; f_equal;
    (destruct (slide_image s) as [node|] eqn:Himg; [simpl|done]);
    specialize (Hslides s node Hs Himg).
  - rewrite lookup_insert_ne by lia. apply lookup_delete_ne. lia.
  - apply lookup_delete_ne. lia.
Qed.

Lemma rendered_emit st :
  wf st →
  DOM.rendered_slides (page (emit_if_ready st)) =
    DOM.rendered_slides (page st) ++
      match ready st with
      | Some (caption, node) => [(marked_parse caption, img_src (page st) !! node)]
      | None => []
      end.
Proof.
  intros Hwf. unfold emit_if_ready.
  destruct (ready st) as [[caption node]|] eqn:Hready; [|by rewrite app_nil_r].
  apply ready_Some in Hready as (_ & _ & Himg).
  unfold DOM.rendered_slides. simpl.
  rewrite (detach_pending _ _ Hwf Himg), fmap_app. done.
Qed.

End Invariant.

Lemma prefix_snoc_inv {A} (p l : list A) x :
  p `prefix_of` l ++ [x] → p `prefix_of` l ∨ p = l ++ [x].
Proof.
  intros [k Hk]. destruct k as [|y k _] using rev_ind.
  - right. by rewrite app_nil_r in Hk.
  - left. rewrite app_assoc in Hk. apply app_inj_tail in Hk as [-> _].
    by exists k.
Qed.

Lemma open_run_nil : open_run [].
Proof. by intros p ->%prefix_nil_inv. Qed.

Lemma open_run_snoc cur f :
  open_run cur → complete (cur ++ [f]) = false → open_run (cur ++ [f]).
Proof. intros Hopen Hf p [Hp| ->]%prefix_snoc_inv; [by apply Hopen|done]. Qed.

Lemma minimal_snoc cur f : open_run cur → minimal (cur ++ [f]).
Proof. intros Hopen p [Hp| ->]%prefix_snoc_inv Hne; [by apply Hopen|done]. Qed.

Lemma segments_concat fs cur :
  concat (segments cur fs).1 ++ (segments cur fs).2 = cur ++ fs.
Proof.
  revert cur. induction fs as [|f fs IH]; intros cur; simpl.
  - by rewrite app_nil_r.
  - destruct (complete (cur ++ [f])).
    + specialize (IH []). destruct (segments [] fs) as [segs left]. simpl in *.
      by rewrite <- !app_assoc, IH.
    + by rewrite IH, <- app_assoc.
Qed.

Lemma segments_runs fs cur :
  open_run cur →
  Forall (λ seg, complete seg = true ∧ minimal seg) (segments cur fs).1
  ∧ open_run (segments cur fs).2.
Proof.
  revert cur. induction fs as [|f fs IH]; intros cur Hopen; simpl; [done|].
  destruct (complete (cur ++ [f])) eqn:Hf.
  - destruct (IH [] open_run_nil) as [Hsegs Hleft].
    destruct (segments [] fs) as [segs left]. simpl in *. split; [|done].
    constructor; [|done]. split; [done|]. by apply minimal_snoc.
  - apply IH. by apply open_run_snoc.
Qed.

(** ** The slides follow the segments *)

Section Segments.
Context `{Runtime}.

Lemma text_apply_fragment st f :
  text (apply_fragment st f) = text st +:+ texts [f].
Proof. destruct f; simpl; by rewrite append_nil_r. Qed.

Lemma pending_apply_fragment st f :
  pending (apply_fragment st f) =
    match last_image [f] with
    | Some image => Some (source_of image)
    | None => pending st
    end.
Proof.
  destruct f as [s|data| |]; [done| | |done]; unfold pending; simpl.
  - by rewrite lookup_insert_eq.
  - by rewrite lookup_delete_eq.
Qed.

Lemma tracks_apply_fragment st cur f :
  tracks st cur → tracks (apply_fragment st f) (cur ++ [f]).
Proof.
  intros [Htext Himg]. split.
  - by rewrite text_apply_fragment, texts_app, Htext.
  - rewrite pending_apply_fragment, last_image_app, Himg.
    by destruct (last_image [f]).
Qed.

Lemma tracks_initial d : tracks (initial_state d) [].
Proof. done. Qed.

Lemma complete_snoc cur f :
  complete (cur ++ [f]) =
    negb (String.eqb (texts (cur ++ [f])) "")
    && bool_decide (is_Some (last_image (cur ++ [f]))) && checked f.
Proof. unfold complete. by rewrite last_snoc. Qed.

Lemma ready_tracks st cur :
  tracks st cur →
  match ready st with
  | Some (caption, node) =>
      negb (String.eqb (texts cur) "") && bool_decide (is_Some (last_image cur))
        = true
      ∧ caption = texts cur
      ∧ img_src (page st) !! node = last_image cur ≫= source_of
  | None =>
      negb (String.eqb (texts cur) "") && bool_decide (is_Some (last_image cur))
        = false
  end.
Proof.
  intros [Htext Himg]. unfold pending in *.
  destruct (ready st) as [[caption node]|] eqn:Hready.
  - apply ready_Some in Hready as (Hne & -> & Hnode).
    rewrite Hnode in Himg. simpl in Himg.
    destruct (last_image cur) as [image|]; [|done].
    injection Himg as Himg.
    split_and!; [|done|done].
    rewrite <- Htext. apply andb_true_iff. split.
    + by apply negb_true_iff, String.eqb_neq.
    + by apply bool_decide_eq_true.
  - apply ready_None in Hready as [Hempty|Hnone].
    + rewrite <- Htext, Hempty. done.
    + rewrite Hnone in Himg. simpl in Himg.
      destruct (last_image cur); [done|]. apply andb_false_iff. right.
      apply bool_decide_eq_false. by intros [? ?].
Qed.

Lemma assembly_segments fs st cur :
  wf st → tracks st cur →
  tracks (assemble st fs) (segments cur fs).2
  ∧ DOM.rendered_slides (page (assemble st fs)) =
      DOM.rendered_slides (page st) ++ (slide_of <$> (segments cur fs).1).
Proof.
  revert st cur. induction fs as [|f fs IH]; intros st cur Hwf Htracks; simpl.
  - by rewrite app_nil_r.
  - pose proof (wf_apply_fragment st f Hwf) as Hwf1.
    pose proof (tracks_apply_fragment st cur f Htracks) as Htracks1.
    pose proof (ready_tracks _ _ Htracks1) as Hready.
    pose proof (rendered_emit _ Hwf1) as Hemit.
    rewrite rendered_apply_fragment in Hemit by done.
    pose proof (wf_step st f Hwf) as Hwf2.
    rewrite complete_snoc. unfold step in *.
    destruct (checked f).
    + unfold emit_if_ready in *.
      destruct (ready (apply_fragment st f)) as [[caption node]|].
      * destruct Hready as (-> & -> & Hsrc).
        destruct (IH _ [] Hwf2) as [Ht Hr]; [done|].
        destruct (segments [] fs) as [segs left]. simpl in *.
        split; [done|]. rewrite Hr, Hemit, <- app_assoc. simpl.
        unfold slide_of at 2. by rewrite Hsrc.
      * rewrite Hready. rewrite app_nil_r in Hemit. simpl.
        destruct (IH _ (cur ++ [f]) Hwf2 Htracks1) as [Ht Hr].
        split; [done|]. by rewrite Hr, Hemit.
    + rewrite andb_false_r.
      destruct (IH _ (cur ++ [f]) Hwf2 Htracks1) as [Ht Hr].
      split; [done|]. by rewrite Hr, rendered_apply_fragment.
Qed.

End Segments.

(** ** Reachable states *)

Section Reachable.
Context `{Runtime}.

Lemma reachable_wf d st : reachable d st → wf st.
Proof.
  induction 1 as [|st part _ IH]; [apply wf_initial|].
  rewrite process_part_spec. destruct (fragment_of part) as [f [e|]]; simpl.
  - by apply wf_apply_fragment.
  - by apply wf_step.
Qed.

Lemma reachable_for_of {A} d (body : loop_state → A → loop_state * option exn) :
  (∀ st x, reachable d st → reachable d (body st x).1) →
  ∀ items st, reachable d st → reachable d (for_of body st items).1.
Proof.
  intros Hbody items. induction items as [|x rest IH]; intros st Hst; [done|].
  simpl. specialize (Hbody st x Hst).
  destruct (body st x) as [st' [e|]]; [done|]. by apply IH.
Qed.

Lemma reachable_for_each {A} d (body : loop_state → A → loop_state * list exn) :
  (∀ st x, reachable d st → reachable d (body st x).1) →
  ∀ items st, reachable d st → reachable d (for_each body st items).1.
Proof.
  intros Hbody items. induction items as [|x rest IH]; intros st Hst; [done|].
  rewrite for_each_cons. by apply IH, Hbody.
Qed.

Lemma reachable_process_candidate d st candidate :
  reachable d st → reachable d (process_candidate st candidate).1.
Proof.
  intros Hst. unfold process_candidate. destruct (_ ≫= _); [|done].
  apply reachable_for_of; [|done]. intros. by apply reach_part.
Qed.

Lemma reachable_process_chunk d st chunk :
  reachable d st → reachable d (process_chunk st chunk).1.
Proof.
  intros Hst. unfold process_chunk. destruct (_ ≫= _); [|done].
  apply reachable_for_of; [|done]. intros. by apply reachable_process_candidate.
Qed.

Lemma reachable_process_line d st line :
  reachable d st → reachable d (process_line st line).1.
Proof.
  intros Hst. unfold process_line. destruct (JSON_parse _); [|done].
  by apply reachable_process_chunk.
Qed.

Lemma reachable_process_read d st value :
  reachable d st → reachable d (process_read st value).1.
Proof.
  intros Hst. apply reachable_for_each; [|done].
  intros. by apply reachable_process_line.
Qed.

Lemma reachable_stream_loop d st reads :
  reachable d st → reachable d (stream_loop st reads).1.
Proof.
  intros Hst. apply reachable_for_each; [|done].
  intros. by apply reachable_process_read.
Qed.

(** One fragment adds at most one slide after the slides already shown. *)
Lemma rendered_step st f :
  wf st →
  DOM.rendered_slides (page (step st f)) =
    DOM.rendered_slides (page st) ++
      match (if checked f then ready (apply_fragment st f) else None) with
      | Some (caption, node) =>
          [(marked_parse caption, img_src (page (apply_fragment st f)) !! node)]
      | None => []
      end.
Proof.
  intros Hwf. unfold step. destruct (checked f).
  - rewrite rendered_emit by by apply wf_apply_fragment.
    by rewrite rendered_apply_fragment.
  - by rewrite rendered_apply_fragment, app_nil_r.
Qed.

Lemma rendered_assemble st fs :
  wf st →
  ∃ new, DOM.rendered_slides (page (assemble st fs)) =
           DOM.rendered_slides (page st) ++ new.
Proof.
  revert st. induction fs as [|f fs IH]; intros st Hwf; simpl.
  - exists []. by rewrite app_nil_r.
  - destruct (IH (step st f)) as [new Hnew]; [by apply wf_step|].
    rewrite Hnew, rendered_step by done. rewrite <- app_assoc. eauto.
Qed.

(** The slideshow itself only grows at its end. *)
Lemma slideshow_apply_fragment st f :
  slideshow (page (apply_fragment st f)) = slideshow (page st).
Proof. by destruct f. Qed.

Lemma slideshow_emit st :
  wf st →
  slideshow (page (emit_if_ready st)) =
    slideshow (page st) ++
      match ready st with
      | Some (caption, node) =>
          [ {| slide_image := Some node; slide_caption := marked_parse caption |} ]
      | None => []
      end.
Proof.
  intros Hwf. unfold emit_if_ready.
  destruct (ready st) as [[caption node]|] eqn:Hready; [|by rewrite app_nil_r].
  apply ready_Some in Hready as (_ & _ & Himg). simpl.
  by rewrite (detach_pending _ _ Hwf Himg).
Qed.


End Reachable.

(** ** Slides *)






(** The slides shown at the end are the runs of fragments cut after each
    completing fragment. *)
Lemma stream_loop_segments `{Runtime} d reads :
  let final := (stream_loop (initial_state d) reads).1 in
  ∃ segs left,
    stream_fragments reads = concat segs ++ left
    ∧ Forall (λ seg, complete seg = true ∧ minimal seg) segs
    ∧ open_run left
    ∧ DOM.rendered_slides (page final) = slide_of <$> segs
    ∧ text final = texts left.
Proof.
  simpl. rewrite stream_loop_spec.
  exists (segments [] (stream_fragments reads)).1,
         (segments [] (stream_fragments reads)).2.
  destruct (segments_runs (stream_fragments reads) [] open_run_nil) as [Hsegs Hleft].
  destruct (assembly_segments (stream_fragments reads) (initial_state d) [])
    as [[Htext _] Hshown]; [apply wf_initial|done|].
  split_and!; [by rewrite segments_concat|done..].
Qed.

(** C4.  The loop handles the parsed chunks in the order of arrival, and
    the slides shown are, in order, the runs of fragments cut after each
    fragment that completes a slide: the caption of a slide is made from the
    text fragments of its run, concatenated in order, that is, from all the
    text received since the slide before it. *)
Theorem captions_follow_arrival_order `{Runtime} d reads :
  let final := (stream_loop (initial_state d) reads).1 in
  final = (process_chunks (initial_state d) (parsed_chunks reads)).1
  ∧ ∃ segs left,
      stream_fragments reads = concat segs ++ left
      ∧ Forall (λ seg, complete seg = true ∧ minimal seg) segs
      ∧ open_run left
      ∧ DOM.rendered_slides (page final) =
          (λ seg, (marked_parse (texts seg), last_image seg ≫= source_of)) <$> segs
      ∧ text final = texts left.
Proof.
  simpl. split; [apply stream_loop_chunks|]. apply stream_loop_segments.
Qed.

(** ** Frame: what a fragment leaves alone *)

Section Frame.
Context `{Runtime}.

Lemma store_frame_apply st f :
  (next_node (page st) ≤ next_node (page (apply_fragment st f)))%nat
  ∧ ∀ node, (node < next_node (page st))%nat →
      img_src (page (apply_fragment st f)) !! node = img_src (page st) !! node.
Proof.
  destruct f as [s|data| |]; simpl; (split; [lia|]); intros node Hlt;
    try done.
  - rewrite lookup_insert_ne by lia. apply lookup_delete_ne. lia.
  - apply lookup_delete_ne. lia.
Qed.

Lemma store_frame_step st f :
  (next_node (page st) ≤ next_node (page (step st f)))%nat
  ∧ ∀ node, (node < next_node (page st))%nat →
      img_src (page (step st f)) !! node = img_src (page st) !! node.
Proof.
  pose proof (store_frame_apply st f) as Happly.
  unfold step, emit_if_ready. destruct (checked f); [|done].
  by destruct (ready (apply_fragment st f)) as [[caption node']|].
Qed.

Lemma store_frame st fs :
  (next_node (page st) ≤ next_node (page (assemble st fs)))%nat
  ∧ ∀ node, (node < next_node (page st))%nat →
      img_src (page (assemble st fs)) !! node = img_src (page st) !! node.
Proof.
  revert st. induction fs as [|f fs IH]; intros st; simpl; [done|].
  destruct (store_frame_step st f) as [Hle Hsame].
  destruct (IH (step st f)) as [Hle' Hsame'].
  split; [lia|]. intros node Hlt. rewrite Hsame' by lia. by apply Hsame.
Qed.

Lemma slideshow_step st f :
  wf st → ∃ new, slideshow (page (step st f)) = slideshow (page st) ++ new.
Proof.
  intros Hwf. unfold step. destruct (checked f).
  - rewrite slideshow_emit by by apply wf_apply_fragment.
    rewrite slideshow_apply_fragment. eauto.
  - rewrite slideshow_apply_fragment. exists []. by rewrite app_nil_r.
Qed.

Lemma slideshow_assemble st fs :
  wf st → ∃ new, slideshow (page (assemble st fs)) = slideshow (page st) ++ new.
Proof.
  revert st. induction fs as [|f fs IH]; intros st Hwf; simpl.
  - exists []. by rewrite app_nil_r.
  - destruct (IH (step st f)) as [new Hnew]; [by apply wf_step|].
    destruct (slideshow_step st f Hwf) as [new1 Hnew1].
    rewrite Hnew, Hnew1, <- app_assoc. eauto.
Qed.

Lemma shown_frame st fs :
  wf st →
  (∃ new, slideshow (page (assemble st fs)) = slideshow (page st) ++ new)
  ∧ ∀ s, s ∈ slideshow (page st) →
      DOM.rendered (page (assemble st fs)) s = DOM.rendered (page st) s.
Proof.
  intros Hwf. split; [by apply slideshow_assemble|].
  intros s Hs. unfold DOM.rendered. f_equal.
  destruct (slide_image s) as [node|] eqn:Himg; [simpl|done].
  apply store_frame. by apply (wf_slides _ Hwf s).
Qed.

End Frame.

(** C5.  From any state the loop goes through, whatever is processed next,
    one more part or any further reads, every slide already in the slideshow
    stays where it is, with the caption and the image it had: the slideshow
    afterwards is the old one followed by the new slides. *)
Theorem shown_slides_are_immutable `{Runtime} d st :
  reachable d st →
  (∀ part,
     let st' := (process_part st part).1 in
     (∃ new, slideshow (page st') = slideshow (page st) ++ new)
     ∧ ∀ s, s ∈ slideshow (page st) →
         DOM.rendered (page st') s = DOM.rendered (page st) s)
  ∧ (∀ reads,
     let st' := (stream_loop st reads).1 in
     (∃ new, slideshow (page st') = slideshow (page st) ++ new)
     ∧ ∀ s, s ∈ slideshow (page st) →
         DOM.rendered (page st') s = DOM.rendered (page st) s).
Proof.
  intros Hst. pose proof (reachable_wf _ _ Hst) as Hwf. split.
  - intros part. simpl. rewrite process_part_spec.
    pose proof (fragment_of_checked part) as Hchecked.
    destruct (fragment_of part) as [f [e|]]; simpl.
    + destruct Hchecked as [-> | ->].
      * by apply (shown_frame st []).
      * by apply (shown_frame st [BrokenImage]).
    + by apply (shown_frame st [f]).
  - intros reads. simpl. rewrite stream_loop_spec. by apply shown_frame.
Qed.

Lemma shown_slides_are_immutable_witness :
  reachable (H := Reference.runtime) Example.blank Example.after_slide
  ∧ let st' := (stream_loop (H := Reference.runtime) Example.after_slide
                  Example.more_reads).1 in
    (∃ new, slideshow (page st') = slideshow (page Example.after_slide) ++ new)
    ∧ ∀ s, s ∈ slideshow (page Example.after_slide) →
        DOM.rendered (page st') s = DOM.rendered (page Example.after_slide) s.
Proof.
  assert (Hreach : reachable (H := Reference.runtime) Example.blank
                     Example.after_slide).
  { apply (reach_part Example.blank Example.after_caption
             (Example.image_part "AAAA")).
    apply (reach_part Example.blank (initial_state Example.blank)
             (Example.text_part "Once")), reach_start. }
  split; [exact Hreach|].
  exact (proj2 (shown_slides_are_immutable (H := Reference.runtime)
                  Example.blank Example.after_slide Hreach) Example.more_reads).
Defined.

(** ** The pending image *)

Lemma last_image_none post :
  (∀ data, ImageFragment data ∉ post) → BrokenImage ∉ post →
  last_image post = None.
Proof.
  intros Himage Hbroken. induction post as [|f post IH]; [done|]. simpl.
  rewrite IH.
  - destruct f as [|data| |]; [done| | |done].
    + destruct (Himage data). by left.
    + destruct Hbroken. by left.
  - intros data Hin. apply (Himage data). by right.
  - intros Hin. apply Hbroken. by right.
Qed.

Lemma last_image_last pre f post :
  (∀ data, ImageFragment data ∉ post) → BrokenImage ∉ post →
  last_image (pre ++ f :: post) =
    match last_image [f] with
    | Some image => Some image
    | None => last_image pre
    end.
Proof.
  intros Himage Hbroken. rewrite last_image_app. simpl.
  by rewrite (last_image_none post).
Qed.

(** C10.  An image fragment replaces the pending image, whatever it was:
    once the fragment is taken, the pending image is the new one, and while
    the caption is empty it stays pending and no slide is added.  This is so
    too when the data of the fragment cannot be converted to a string: the
    new image, which then has no source, is the pending one.  So the image
    of a slide is the image fragment received last in its run; the image
    fragments received before it in the run are not shown. *)
Theorem pending_image_is_replaced `{Runtime} :
  (∀ d st part data,
     reachable d st →
     fragment_of part = (ImageFragment data, None) →
     ∃ st1, take_fragment st part = (st1, None)
       ∧ img st1 = Some (next_node (page st))
       ∧ pending st1 = Some (Some (data_url data))
       ∧ text st1 = text st
       ∧ (text st = "" →
          (process_part st part).1 = st1
          ∧ slideshow (page st1) = slideshow (page st)))
  ∧ (∀ d st part e,
     reachable d st →
     fragment_of part = (BrokenImage, Some e) →
     ∃ st1, take_fragment st part = (st1, Some e)
       ∧ img st1 = Some (next_node (page st))
       ∧ pending st1 = Some None
       ∧ text st1 = text st
       ∧ (process_part st part).1 = st1
       ∧ slideshow (page st1) = slideshow (page st))
  ∧ (∀ d reads,
     let final := (stream_loop (initial_state d) reads).1 in
     ∃ segs left,
       stream_fragments reads = concat segs ++ left
       ∧ Forall (λ seg, complete seg = true ∧ minimal seg) segs
       ∧ open_run left
       ∧ length (DOM.rendered_slides (page final)) = length segs
       ∧ ∀ k seg pre f post,
           segs !! k = Some seg →
           seg = pre ++ f :: post →
           (∀ data, ImageFragment data ∉ post) → BrokenImage ∉ post →
           match f with
           | ImageFragment data =>
               snd <$> DOM.rendered_slides (page final) !! k
                 = Some (Some (data_url data))
           | BrokenImage =>
               snd <$> DOM.rendered_slides (page final) !! k = Some None
           | _ => True
           end).
Proof.
  split_and!.
  - intros d st part data _ Hpart.
    exists (apply_fragment st (ImageFragment data)).
    rewrite take_fragment_spec, Hpart. split_and!; [done|done| |done|].
    + unfold pending. simpl. by rewrite lookup_insert_eq.
    + intros Hempty. rewrite process_part_spec, Hpart. simpl. split; [|done].
      unfold step, emit_if_ready. simpl.
      assert (ready (apply_fragment st (ImageFragment data)) = None) as Hnone.
      { apply ready_None. by left. }
      simpl in Hnone. by rewrite Hnone.
  - intros d st part e _ Hpart.
    exists (apply_fragment st BrokenImage).
    rewrite take_fragment_spec, process_part_spec, Hpart.
    split_and!; [done|done| |done..].
    unfold pending. simpl. by rewrite lookup_delete_eq.
  - intros d reads.
    destruct (stream_loop_segments d reads)
      as (segs & left & Hcut & Hsegs & Hleft & Hshown & _).
    exists segs, left. simpl in *. split_and!; [done..| |].
    + by rewrite Hshown, length_fmap.
    + intros k seg pre f post Hk -> Himage Hbroken.
      rewrite Hshown, list_lookup_fmap, Hk. simpl.
      rewrite last_image_last by done. by destruct f.
Qed.

Lemma pending_image_is_replaced_witness :
  reachable (H := Reference.runtime) Example.blank Example.after_image
  ∧ pending Example.after_image = Some (Some (data_url "AAAA"))
  ∧ ∃ st1,
      take_fragment Example.after_image (Example.image_part "BBBB") = (st1, None)
      ∧ img st1 = Some (next_node (page Example.after_image))
      ∧ pending st1 = Some (Some (data_url "BBBB"))
      ∧ text st1 = text Example.after_image
      ∧ (text Example.after_image = "" →
         (process_part (H := Reference.runtime) Example.after_image
            (Example.image_part "BBBB")).1 = st1
         ∧ slideshow (page st1) = slideshow (page Example.after_image)).
Proof.
  assert (Hreach : reachable (H := Reference.runtime) Example.blank
                     Example.after_image).
  { apply (reach_part Example.blank (initial_state Example.blank)
             (Example.image_part "AAAA")), reach_start. }
  split_and!; [exact Hreach|reflexivity|].
  exact (proj1 (pending_image_is_replaced (H := Reference.runtime))
           Example.blank Example.after_image (Example.image_part "BBBB") "BBBB"
           Hreach eq_refl).
Defined.

(** ** Chunks without parts, and malformed payloads *)

Section Inert.
Context `{Runtime}.

Lemma no_parts_inert st candidate :
  no_parts candidate = true → process_candidate st candidate = (st, None).
Proof.
  unfold no_parts, process_candidate, mbind, completion_bind. intros Hno.
  destruct (JS.get (Some candidate) "content") as [[[]|]|]; try done.
  simpl. by destruct (JS.member "parts" members) as [[| | | |[]|]|].
Qed.

Lemma no_parts_all_inert st candidates :
  forallb no_parts candidates = true →
  for_of process_candidate st candidates = (st, None).
Proof.
  induction candidates as [|c rest IH]; [done|].
  simpl. intros [Hc Hrest]%andb_true_iff.
  rewrite no_parts_inert by done. by apply IH.
Qed.

Lemma not_iterable_throws st chunk :
  iterable_candidates chunk = false → ∃ e, process_chunk st chunk = (st, Some e).
Proof.
  unfold iterable_candidates, process_chunk. destruct (_ ≫= _) as [cs|e]; [done|].
  eauto.
Qed.

Lemma process_lines_cons st line lines :
  (process_lines st (line :: lines)).1 =
    (process_lines (process_line st line).1 lines).1.
Proof. unfold process_lines. by rewrite for_each_cons. Qed.

Lemma process_lines_app st lines1 lines2 :
  (process_lines st (lines1 ++ lines2)).1 =
    (process_lines (process_lines st lines1).1 lines2).1.
Proof. apply for_each_app. Qed.

Lemma stream_loop_cons st value reads :
  (stream_loop st (value :: reads)).1 =
    (stream_loop (process_lines st (lines_of value)).1 reads).1.
Proof. unfold stream_loop. by rewrite for_each_cons. Qed.

Lemma stream_loop_app st reads1 reads2 :
  (stream_loop st (reads1 ++ reads2)).1 =
    (stream_loop (stream_loop st reads1).1 reads2).1.
Proof. apply for_each_app. Qed.

End Inert.

(** C6.  A chunk record whose candidates all have a content with no part,
    the [parts] member being missing, [null] or empty, is processed without
    an exception and leaves the caption text, the pending image and the page
    as they were; so does the line that carries it. *)
Theorem zero_parts_chunk_is_inert `{Runtime} st chunk :
  zero_parts_chunk chunk = true →
  process_chunk st chunk = (st, None)
  ∧ ∀ line,
      JSON_parse (JSString.replace "data: " "" line) = Some chunk →
      process_line st line = (st, None).
Proof.
  intros Hzero.
  assert (process_chunk st chunk = (st, None)) as Hchunk.
  { unfold zero_parts_chunk in Hzero. destruct chunk as [| | | | |members]; try done.
    unfold process_chunk, mbind, completion_bind. simpl.
    destruct (JS.member "candidates" members) as [[| | | |candidates|]|]; try done.
    simpl. by apply no_parts_all_inert. }
  split; [done|]. intros line Hparse. unfold process_line. by rewrite Hparse.
Qed.

Lemma zero_parts_chunk_is_inert_witness :
  zero_parts_chunk (Example.chunk_of []) = true
  ∧ process_chunk (H := Reference.runtime) Example.after_caption
      (Example.chunk_of []) = (Example.after_caption, None).
Proof.
  split; [reflexivity|].
  exact (proj1 (zero_parts_chunk_is_inert (H := Reference.runtime)
                  Example.after_caption (Example.chunk_of []) eq_refl)).
Defined.

(** C9.  A line whose payload [JSON.parse] rejects, or whose parsed value
    has no iterable [candidates], ends in the [catch] clause with the
    caption text, the pending image and the page as they were, and the loop
    goes on with the lines and the reads that follow as if the line had not
    been there. *)
Theorem malformed_payload_is_skipped `{Runtime} line :
  (let payload := JSString.replace "data: " "" line in
   JSON_parse payload = None
   ∨ ∃ chunk, JSON_parse payload = Some chunk ∧ iterable_candidates chunk = false) →
  (∀ st, ∃ e, process_line st line = (st, Some e))
  ∧ (∀ st before after,
       (process_lines st (before ++ line :: after)).1 =
         (process_lines st (before ++ after)).1)
  ∧ (∀ st reads_before value reads_after before after,
       lines_of value = before ++ line :: after →
       (stream_loop st (reads_before ++ value :: reads_after)).1 =
         (stream_loop
            (process_lines (stream_loop st reads_before).1 (before ++ after)).1
            reads_after).1).
Proof.
  simpl. intros Hbad.
  assert (∀ st, ∃ e, process_line st line = (st, Some e)) as Hline.
  { intros st. unfold process_line.
    destruct Hbad as [->|(chunk & -> & Hchunk)]; [by eexists|].
    by apply not_iterable_throws. }
  assert (∀ st before after,
            (process_lines st (before ++ line :: after)).1 =
              (process_lines st (before ++ after)).1) as Hlines.
  { intros st before after.
    rewrite !process_lines_app, process_lines_cons.
    destruct (Hline (process_lines st before).1) as [e ->]. done. }
  split_and!; [done..|].
  intros st reads_before value reads_after before after Hvalue.
  by rewrite stream_loop_app, stream_loop_cons, Hvalue, Hlines.
Qed.

Lemma malformed_payload_is_skipped_witness :
  JSON_parse (Runtime := Reference.runtime)
    (JSString.replace "data: " "" "data: {") = None
  ∧ ∀ st, ∃ e, process_line (H := Reference.runtime) st "data: {" = (st, Some e).
Proof.
  split; [reflexivity|].
  exact (proj1 (malformed_payload_is_skipped (H := Reference.runtime) "data: {"
                  (or_introl eq_refl))).
Defined.

(** ** Cutting a read into lines *)

Lemma occurs_app c s t : occurs c (s +:+ t) = occurs c s || occurs c t.
Proof.
  induction s as [|c' s IH]; [done|].
  rewrite append_cons. cbn [occurs]. by rewrite IH, orb_assoc.
Qed.

Lemma split_line s rest :
  occurs JSString.LF s = false →
  JSString.split JSString.blank_line (s +:+ JSString.blank_line +:+ rest) =
    s :: JSString.split JSString.blank_line rest.
Proof.
  unfold JSString.split. induction s as [|c s IH]; intros Hs.
  - by destruct rest.
  - cbn [occurs] in Hs. apply orb_false_iff in Hs as [Hc Hs].
    rewrite append_cons. cbn [JSString.split_from].
    assert (String.prefix JSString.blank_line
              (String c (s +:+ JSString.blank_line +:+ rest)) = false) as ->.
    { unfold JSString.blank_line. cbn [String.prefix].
      destruct (ascii_dec JSString.LF c) as [Heq|Hne]; [|done].
      apply Ascii.eqb_neq in Hc. done. }
    by rewrite IH.
Qed.


Lemma prefix_data_append s : String.prefix "data: " ("data: " +:+ s) = true.
Proof. by destruct s. Qed.

Lemma replace_data_append s : JSString.replace "data: " "" ("data: " +:+ s) = s.
Proof. by destruct s. Qed.

Section Lines.
Context `{Runtime}.

Lemma events_text_cons chunk chunks :
  events_text (chunk :: chunks) =
    ("data: " +:+ JSON_stringify chunk) +:+ JSString.blank_line
      +:+ events_text chunks.
Proof. simpl. unfold sse_event. by rewrite !append_assoc. Qed.

(** The lines of a text made of whole events. *)
Lemma split_events chunks :
  Forall (λ chunk, occurs JSString.LF (JSON_stringify chunk) = false) chunks →
  JSString.split JSString.blank_line (events_text chunks) =
    ((λ chunk, "data: " +:+ JSON_stringify chunk) <$> chunks) ++ [""].
Proof.
  induction 1 as [|chunk chunks Hchunk _ IH]; [done|].
  rewrite events_text_cons, split_line, IH; [done|].
  by rewrite occurs_app, Hchunk.
Qed.

Lemma filter_data_lines chunks :
  List.filter (JSString.startsWith "data: ")
    (((λ chunk, "data: " +:+ JSON_stringify chunk) <$> chunks) ++ [""]) =
  (λ chunk, "data: " +:+ JSON_stringify chunk) <$> chunks.
Proof.
  induction chunks as [|chunk chunks IH]; [done|].
  rewrite fmap_cons, <- app_comm_cons. cbn [List.filter].
  unfold JSString.startsWith at 1. by rewrite prefix_data_append, IH.
Qed.

Lemma lines_of_whole_events chunks :
  Forall (λ chunk, occurs JSString.LF (JSON_stringify chunk) = false) chunks →
  TextDecoder_decode (whole_events chunks) = events_text chunks →
  JSString.replace "data: " "" <$> lines_of (whole_events chunks) =
    JSON_stringify <$> chunks.
Proof.
  intros Hlf Hdecode. unfold lines_of.
  rewrite Hdecode, split_events, filter_data_lines by done.
  rewrite <- list_fmap_compose. apply list_fmap_ext.
  intros _ chunk _. apply replace_data_append.
Qed.

Lemma payloads_whole_events groups :
  Forall (λ chunk, occurs JSString.LF (JSON_stringify chunk) = false)
    (concat groups) →
  Forall (λ group, TextDecoder_decode (whole_events group) = events_text group)
    groups →
  payloads (whole_events <$> groups) = JSON_stringify <$> concat groups.
Proof.
  unfold payloads. induction groups as [|group groups IH]; intros Hlf Hdec; [done|].
  cbn [concat] in *. apply Forall_app in Hlf as [Hlf1 Hlf2].
  apply Forall_cons in Hdec as [Hdec1 Hdec2].
  rewrite fmap_cons, bind_cons, fmap_app, IH by done.
  by rewrite lines_of_whole_events.
Qed.

Lemma omap_parse_stringify chunks :
  Forall (λ chunk, JSON_parse (JSON_stringify chunk) = Some chunk) chunks →
  omap JSON_parse (JSON_stringify <$> chunks) = chunks.
Proof.
  induction 1 as [|chunk chunks Hchunk _ IH]; [done|].
  rewrite fmap_cons. cbn [omap list_omap]. rewrite Hchunk.
  f_equal. apply IH.
Qed.

Lemma concat_whole_events groups :
  concat (whole_events <$> groups) = concat (proxy_events (concat groups)).
Proof.
  induction groups as [|group groups IH]; [done|].
  rewrite fmap_cons. simpl. unfold proxy_events in *.
  rewrite fmap_app, concat_app, IH. done.
Qed.

End Lines.


(** C3, as the code has it.  When every read the transport delivers holds
    whole events only, zero or more of the events the proxy wrote, then the
    client hands the payload of every event to [JSON.parse], in order, and
    (given that the serialisation holds no line feed, that [JSON.parse]
    reads back what [JSON.stringify] wrote and that the decoder gives back
    the encoded text) gets every chunk back and processes it.  Nothing is
    said of an event that a read boundary cuts in two: the loop has no
    buffer that would join the two halves. *)
Theorem whole_events_are_parsed `{Runtime} groups :
  Forall (λ chunk, occurs JSString.LF (JSON_stringify chunk) = false
                   ∧ JSON_parse (JSON_stringify chunk) = Some chunk)
    (concat groups) →
  Forall (λ group, TextDecoder_decode (whole_events group) = events_text group)
    groups →
  let reads := whole_events <$> groups in
  concat reads = concat (proxy_events (concat groups))
  ∧ payloads reads = JSON_stringify <$> concat groups
  ∧ parsed_chunks reads = concat groups
  ∧ ∀ st, (stream_loop st reads).1 = (process_chunks st (concat groups)).1.
Proof.
  intros Hchunks Hdecode. simpl.
  apply Forall_and in Hchunks as [Hlf Hparse].
  assert (parsed_chunks (whole_events <$> groups) = concat groups) as Hparsed.
  { unfold parsed_chunks. rewrite payloads_whole_events by done.
    by apply omap_parse_stringify. }
  split_and!; [apply concat_whole_events|by apply payloads_whole_events|done|].
  intros st. by rewrite stream_loop_chunks, Hparsed.
Qed.

Lemma whole_events_are_parsed_witness :
  let groups := [[Example.chunk_of [Example.text_part "Once"];
                  Example.chunk_of [Example.image_part "AAAA"]];
                 [];
                 [Example.slide_chunk]] in
  parsed_chunks (H := Reference.runtime)
    (whole_events (H := Reference.runtime) <$> groups) = concat groups.
Proof.
  simpl.
  refine (proj1 (proj2 (proj2
    (whole_events_are_parsed (H := Reference.runtime)
       [[Example.chunk_of [Example.text_part "Once"];
         Example.chunk_of [Example.image_part "AAAA"]];
        [];
        [Example.slide_chunk]] _ _)))).
  - repeat constructor.
  - repeat constructor.
Defined.

(** C3, as stated, fails: the one event of [Example.slide_chunk], delivered
    whole, is parsed; the same bytes delivered in two reads, cut after the
    twenty-fourth byte, give the loop no chunk at all. *)
Lemma cut_event_is_lost :
  concat Example.cut_reads =
    concat (proxy_events (H := Reference.runtime) [Example.slide_chunk])
  ∧ parsed_chunks (H := Reference.runtime) Example.whole_read = [Example.slide_chunk]
  ∧ parsed_chunks (H := Reference.runtime) Example.cut_reads = []
  ∧ ¬ survives_any_partition (H := Reference.runtime).
Proof.
  split_and!; [by vm_compute..|].
  intros Hall.
  specialize (Hall [Example.slide_chunk] Example.cut_reads eq_refl).
  vm_compute in Hall. discriminate.
Qed.

(** ** The proxy *)

(** C2.  For a POST whose body has a truthy [message], when the request
    succeeds, that is, the message converts to a string, the call to the
    model API returns and the iteration over its result ends normally, the
    handler has called the API once, with the message followed by the
    additional instructions, and answers with a stream into which it has
    enqueued, for each chunk in order, the bytes of ['data: '], the chunk's
    JSON serialisation and a blank line, and which it has then closed. *)
Theorem handler_streams_every_chunk `{Runtime} api req parsed message prompt result :
  method req = "POST" →
  json_body req = Returns parsed →
  JS.get (Some parsed) "message" = Normal (Some message) →
  JS.ToBoolean (Some message) = true →
  JS.ToString message = Normal prompt →
  api (call_for prompt) = Returns result →
  failure result = None →
  handler api req =
    ({| status := 200;
        headers := [("Content-Type", "text/event-stream");
                    ("Cache-Control", "no-cache");
                    ("Connection", "keep-alive")];
        body := StreamBody
                  ((λ chunk, TextEncoder_encode
                               ("data: " +:+ JSON_stringify chunk
                                         +:+ JSString.blank_line))
                     <$> yielded result)
                  Closed |},
     [call_for prompt]).
Proof.
  intros Hmethod Hbody Hmessage Htruthy Hprompt Hcall Hdone.
  unfold handler, destructure_message, event_stream.
  rewrite Hmethod, Hbody, Hmessage, Htruthy. simpl. rewrite Hprompt.
  fold (call_for prompt). by rewrite Hcall, Hdone.
Qed.

Lemma handler_streams_every_chunk_witness :
  handler (H := Reference.runtime) Example.two_chunks (Example.ask "gravity") =
    ({| status := 200;
        headers := [("Content-Type", "text/event-stream");
                    ("Cache-Control", "no-cache");
                    ("Connection", "keep-alive")];
        body := StreamBody
                  (proxy_events (H := Reference.runtime)
                     [Example.chunk_of [Example.text_part "Once"];
                      Example.chunk_of [Example.image_part "AAAA"]])
                  Closed |},
     [call_for "gravity"]).
Proof.
  exact (handler_streams_every_chunk (H := Reference.runtime)
           Example.two_chunks (Example.ask "gravity")
           (JObj [("message", JStr "gravity")]) (JStr "gravity") "gravity"
           {| yielded := [Example.chunk_of [Example.text_part "Once"];
                          Example.chunk_of [Example.image_part "AAAA"]];
              failure := None |}
           eq_refl eq_refl eq_refl eq_refl eq_refl eq_refl eq_refl).
Defined.

(** C7.  For a POST, when [req.json()] throws, or when the body has a
    truthy [message] and either converting it to a string throws or the
    call to the model API throws, the handler answers with status 500 and
    the JSON text of an object whose [error] member holds the message of
    what was thrown, or ['An unknown error occurred'] when that is not an
    [Error]; the body is no stream. *)
Theorem handler_surfaces_errors `{Runtime} api req error :
  method req = "POST" →
  (json_body req = Throws error
   ∨ (∃ parsed message e,
       json_body req = Returns parsed
       ∧ JS.get (Some parsed) "message" = Normal (Some message)
       ∧ JS.ToBoolean (Some message) = true
       ∧ JS.ToString message = Throw e
       ∧ error = ThrownError cannot_convert_message)
   ∨ ∃ parsed message prompt,
       json_body req = Returns parsed
       ∧ JS.get (Some parsed) "message" = Normal (Some message)
       ∧ JS.ToBoolean (Some message) = true
       ∧ JS.ToString message = Normal prompt
       ∧ api (call_for prompt) = Throws error) →
  (handler api req).1 =
    {| status := 500;
       headers := [("Content-Type", "application/json")];
       body := TextBody
                 (JSON_stringify
                    (JObj [("error", JObj [("message", JStr (reported error))])])) |}.
Proof.
  intros Hmethod Hthrown. unfold handler, destructure_message.
  rewrite Hmethod.
  destruct Hthrown
    as [Hbody|[(parsed & message & e & Hbody & Hmessage & Htruthy & Hprompt & ->)
              |(parsed & message & prompt & Hbody & Hmessage & Htruthy
                & Hprompt & Hcall)]];
    rewrite Hbody; [done| |]; rewrite Hmessage, Htruthy; simpl; rewrite Hprompt;
    [done|].
  fold (call_for prompt). by rewrite Hcall.
Qed.

Lemma handler_surfaces_errors_witness :
  (handler (H := Reference.runtime) Example.refusing (Example.ask "gravity")).1 =
    {| status := 500;
       headers := [("Content-Type", "application/json")];
       body := TextBody
                 (JSON_stringify (Runtime := Reference.runtime)
                    (JObj [("error", JObj [("message", JStr "quota exceeded")])])) |}.
Proof.
  refine (handler_surfaces_errors (H := Reference.runtime)
            Example.refusing (Example.ask "gravity")
            (ThrownError "quota exceeded") eq_refl _).
  right. right.
  exists (JObj [("message", JStr "gravity")]), (JStr "gravity"), "gravity".
  by split_and!.
Defined.


(** C8, where it holds: any method but POST gets 405, and a POST whose body
    is a value other than [null] without a truthy [message] gets 400; the
    model API is not called. *)
Lemma handler_rejects_without_calling `{Runtime} api req :
  (method req ≠ "POST" →
   handler api req =
     ({| status := 405; headers := []; body := TextBody "Method Not Allowed" |}, []))
  ∧ (∀ parsed message,
       method req = "POST" →
       json_body req = Returns parsed →
       JS.get (Some parsed) "message" = Normal message →
       JS.ToBoolean message = false →
       handler api req =
         ({| status := 400; headers := [];
             body := TextBody "Missing message in request body" |}, [])).
Proof.
  unfold handler, destructure_message. split.
  - intros Hmethod%String.eqb_neq. by rewrite Hmethod.
  - intros parsed message Hmethod Hbody Hmessage Hfalsy.
    by rewrite Hmethod, Hbody, Hmessage, Hfalsy.
Qed.

(** C8, where it fails: a POST whose body is the JSON text [null] has no
    truthy [message], and the answer is not 400 but 500, with the message of
    the [TypeError] that destructuring [null] throws. *)
Theorem null_body_gets_500 `{Runtime} api :
  json_body Example.null_body = Returns JNull
  ∧ handler api Example.null_body =
      ({| status := 500;
          headers := [("Content-Type", "application/json")];
          body := TextBody
                    (JSON_stringify
                       (JObj [("error",
                               JObj [("message", JStr destructure_null_message)])])) |},
       []).
Proof. done. Qed.

(** ** Runs on sample streams *)

(** The event of one chunk, delivered whole, makes one slide and logs
    nothing. *)
Example run_whole_read :
  let final := stream_loop (H := Reference.runtime)
                 (initial_state Example.blank) Example.whole_read in
  DOM.rendered_slides (page final.1) =
    [(Reference.paragraph "Once", Some "data:image/png;base64,AAAA")]
  ∧ final.2 = [].
Proof. by vm_compute. Qed.

(** The same bytes cut in two reads make no slide; the first read ends in
    the [catch] clause and the second one holds no line to parse. *)
Example run_cut_reads :
  let final := stream_loop (H := Reference.runtime)
                 (initial_state Example.blank) Example.cut_reads in
  DOM.rendered_slides (page final.1) = []
  ∧ text final.1 = "" ∧ img final.1 = None
  ∧ final.2 = [SyntaxError].
Proof. by vm_compute. Qed.

(** Two images, then a caption: the slide shows the second image. *)
Example run_two_images :
  let final := process_chunks (H := Reference.runtime)
                 (initial_state Example.blank)
                 [Example.chunk_of [Example.image_part "AAAA"];
                  Example.chunk_of [Example.image_part "BBBB";
                                    Example.text_part "Once"]] in
  DOM.rendered_slides (page final.1) =
    [(Reference.paragraph "Once", Some "data:image/png;base64,BBBB")].
Proof. by vm_compute. Qed.

(** A candidate without content stops its chunk; what was read before it
    stays. *)
Example run_missing_content :
  let final := process_chunk (H := Reference.runtime)
                 (initial_state Example.blank)
                 (JObj [("candidates",
                         JArr [JObj [("content",
                                      JObj [("parts",
                                             JArr [Example.text_part "Once"])])];
                               JObj [("finishReason", JStr "SAFETY")]])]) in
  text final.1 = "Once" ∧ final.2 = Some TypeError.
Proof. by vm_compute. Qed.

Example run_not_post api :
  (handler (H := Reference.runtime) api
     {| method := "GET"; json_body := Throws ThrownOther |}).1.(status) = 405%nat.
Proof. done. Qed.

(** A message that cannot be converted to a string: the handler answers
    500 with the message of the [TypeError] and does not call the model
    API. *)
Example run_object_message api :
  handler (H := Reference.runtime) api Example.ask_object =
    ({| status := 500;
        headers := [("Content-Type", "application/json")];
        body := TextBody
                  (JSON_stringify (Runtime := Reference.runtime)
                     (JObj [("error",
                             JObj [("message",
                                    JStr "Cannot convert object to primitive value")])])) |},
     []).
Proof. done. Qed.

(** An image whose data cannot be converted stops its chunk and stays
    pending without a source: the caption read next completes a slide with
    it. *)
Example run_broken_image :
  let final := process_chunks (H := Reference.runtime)
                 (initial_state Example.blank)
                 [Example.chunk_of [Example.text_part "a"; Example.broken_image;
                                    Example.text_part "x"];
                  Example.chunk_of [Example.text_part "b"];
                  Example.chunk_of [Example.text_part "c";
                                    Example.image_part "BBBB"]] in
  DOM.rendered_slides (page final.1) =
    [(Reference.paragraph "ab", None);
     (Reference.paragraph "c", Some "data:image/png;base64,BBBB")]
  ∧ final.2 = [TypeError].
Proof. by vm_compute. Qed.

(** * More of the code *)

(** ** The loop between two parts *)

Lemma for_of_app `{Runtime} {A}
    (body : loop_state → A → loop_state * option exn) st xs ys :
  for_of body st (xs ++ ys) =
    match for_of body st xs with
    | (st', None) => for_of body st' ys
    | thrown => thrown
    end.
Proof.
  revert st. induction xs as [|x xs IH]; intros st; [done|].
  simpl. destruct (body st x) as [st' [e|]]; [done|]. apply IH.
Qed.

(** X1.  After a part that is processed without an exception the loop never
    holds both a caption and an image: a pair that is complete has been
    shown already.  The loop holds both only after a part whose image data
    could not be converted to a string, and the image it holds then has no
    source. *)
Theorem held_pair_has_no_source `{Runtime} d st :
  reachable d st →
  (∀ part,
     (process_part st part).2 = None →
     text (process_part st part).1 = "" ∨ img (process_part st part).1 = None)
  ∧ (text st ≠ "" → ∀ node, img st = Some node →
     img_src (page st) !! node = None).
Proof.
  intros Hst. split.
  - intros part. rewrite process_part_spec.
    pose proof (fragment_of_checked part) as Hchecked.
    destruct (fragment_of part) as [f [e|]]; [done|]. simpl. intros _.
    unfold step, emit_if_ready. rewrite Hchecked.
    destruct (ready (apply_fragment st f)) as [[caption node]|] eqn:Hready.
    + by left.
    + by apply ready_None.
  - induction Hst as [|st part _ IH]; [done|].
    rewrite process_part_spec.
    pose proof (fragment_of_checked part) as Hchecked.
    destruct (fragment_of part) as [f [e|]]; simpl.
    + destruct Hchecked as [-> | ->]; [done|]. simpl.
      intros _ node [= <-]. apply lookup_delete_eq.
    + unfold step, emit_if_ready. rewrite Hchecked.
      destruct (ready (apply_fragment st f)) as [[caption node]|] eqn:Hready;
        [done|].
      apply ready_None in Hready. intros Hne node Himg.
      destruct Hready; congruence.
Qed.

Lemma held_pair_has_no_source_witness :
  reachable (H := Reference.runtime) Example.blank Example.after_broken_image
  ∧ text Example.after_broken_image = "Once"
  ∧ img Example.after_broken_image = Some 0%nat
  ∧ img_src (page Example.after_broken_image) !! 0%nat = None.
Proof.
  assert (Hreach : reachable (H := Reference.runtime) Example.blank
                     Example.after_broken_image).
  { apply (reach_part Example.blank Example.after_caption Example.broken_image).
    apply (reach_part Example.blank (initial_state Example.blank)
             (Example.text_part "Once")), reach_start. }
  split_and!; [exact Hreach|reflexivity|reflexivity|].
  apply (proj2 (held_pair_has_no_source (H := Reference.runtime)
                  Example.blank Example.after_broken_image Hreach));
    [discriminate|reflexivity].
Defined.

Lemma reachable_hidden `{Runtime} d st :
  reachable d st →
  (slideshow_hidden (page st) = true ↔ slideshow (page st) = []).
Proof.
  induction 1 as [|st part _ IH]; [done|].
  rewrite process_part_spec. destruct (fragment_of part) as [f [e|]]; simpl.
  { by destruct f. }
  unfold step, emit_if_ready. destruct (checked f); [|by destruct f].
  destruct (ready (apply_fragment st f)) as [[caption node]|] eqn:Hready.
  - simpl. split; [done|]. intros Hnil. by apply app_eq_nil in Hnil as [_ ?].
  - by destruct f.
Qed.


(** X2.  The slideshow is hidden exactly as long as it is empty: the loop
    shows it with the first slide and never hides it again. *)
Theorem slideshow_hidden_iff_empty `{Runtime} d st :
  reachable d st →
  (slideshow_hidden (page st) = true ↔ slideshow (page st) = []).
Proof. apply reachable_hidden. Qed.

Lemma slideshow_hidden_iff_empty_witness :
  reachable (H := Reference.runtime) Example.blank Example.after_slide
  ∧ slideshow_hidden (page Example.after_slide) = false
  ∧ (slideshow_hidden (page Example.after_slide) = true
     ↔ slideshow (page Example.after_slide) = []).
Proof.
  assert (Hreach : reachable (H := Reference.runtime) Example.blank
                     Example.after_slide).
  { apply (reach_part Example.blank Example.after_caption
             (Example.image_part "AAAA")).
    apply (reach_part Example.blank (initial_state Example.blank)
             (Example.text_part "Once")), reach_start. }
  split_and!; [exact Hreach|reflexivity|].
  exact (slideshow_hidden_iff_empty (H := Reference.runtime)
           Example.blank Example.after_slide Hreach).
Defined.

(** ** How many slides *)

Lemma images_app fs1 fs2 : images (fs1 ++ fs2) = (images fs1 + images fs2)%nat.
Proof. induction fs1 as [|[] fs1 IH]; simpl; lia. Qed.

Lemma captions_app fs1 fs2 :
  captions (fs1 ++ fs2) = (captions fs1 + captions fs2)%nat.
Proof.
  induction fs1 as [|[s| | |] fs1 IH]; simpl; [lia| |lia..].
  destruct (String.eqb s ""); lia.
Qed.

Lemma last_image_images fs : is_Some (last_image fs) → (1 ≤ images fs)%nat.
Proof.
  induction fs as [|f fs IH]; simpl; [by intros [? ?]|].
  destruct (last_image fs) as [data|].
  - intros _. assert (1 ≤ images fs)%nat by (apply IH; eauto). destruct f; lia.
  - destruct f; [by intros [? ?]|lia|lia|by intros [? ?]].
Qed.

Lemma texts_captions fs : texts fs ≠ "" → (1 ≤ captions fs)%nat.
Proof.
  induction fs as [|[s| | |] fs IH]; simpl; [done| |done..].
  destruct (String.eqb_spec s "") as [->|Hne]; [done|lia].
Qed.

Lemma complete_counts seg :
  complete seg = true → (1 ≤ images seg)%nat ∧ (1 ≤ captions seg)%nat.
Proof.
  unfold complete. intros [[Htext Himg]%andb_true_iff _]%andb_true_iff. split.
  - by apply last_image_images, (bool_decide_eq_true_1 _).
  - apply texts_captions. by apply String.eqb_neq, negb_true_iff.
Qed.

Lemma segments_counts (segs : list (list fragment)) :
  Forall (λ seg, complete seg = true ∧ minimal seg) segs →
  (length segs ≤ images (concat segs))%nat
  ∧ (length segs ≤ captions (concat segs))%nat.
Proof.
  induction 1 as [|seg segs [Hseg _] _ IH]; simpl; [lia|].
  rewrite images_app, captions_app.
  destruct (complete_counts seg Hseg). lia.
Qed.

(** X3.  Every slide uses up an image fragment and a non-empty text
    fragment of its own: at the end of a stream there are no more slides
    than image fragments received, and no more than non-empty text
    fragments received. *)
Theorem slides_bounded_by_fragments `{Runtime} d reads :
  let final := (stream_loop (initial_state d) reads).1 in
  (length (slideshow (page final)) ≤ images (stream_fragments reads))%nat
  ∧ (length (slideshow (page final)) ≤ captions (stream_fragments reads))%nat.
Proof.
  simpl. destruct (stream_loop_segments d reads)
    as (segs & left & Hcut & Hsegs & _ & Hshown & _). simpl in Hshown.
  assert (length (slideshow (page (stream_loop (initial_state d) reads).1))
          = length segs) as ->.
  { apply (f_equal length) in Hshown. unfold DOM.rendered_slides in Hshown.
    by rewrite !length_fmap in Hshown. }
  rewrite Hcut, images_app, captions_app.
  destruct (segments_counts segs Hsegs). lia.
Qed.

Lemma elem_of_concat {A} (x : A) (l : list A) (ls : list (list A)) :
  x ∈ l → l ∈ ls → x ∈ concat ls.
Proof.
  intros Hx. induction 1 as [l ls|l l' ls _ IH]; simpl; apply elem_of_app; auto.
Qed.

Lemma last_image_elem_of fs image :
  last_image fs = Some image →
  match image with
  | Some data => ImageFragment data ∈ fs
  | None => BrokenImage ∈ fs
  end.
Proof.
  induction fs as [|f fs IH]; [done|]. simpl.
  destruct (last_image fs) as [image'|].
  - intros [= <-]. specialize (IH eq_refl). destruct image'; by right.
  - destruct f; intros [= <-]; by left.
Qed.

(** X4.  Every image shown has a source of the form
    [data:image/png;base64,...], made from the data of an image fragment
    of the stream, whatever type the part declared for it; or it has no
    source, and then the stream held an image whose data could not be
    converted to a string. *)
Theorem shown_images_are_png_urls `{Runtime} d reads :
  let final := (stream_loop (initial_state d) reads).1 in
  Forall (λ shown,
            (∃ data, ImageFragment data ∈ stream_fragments reads
                     ∧ shown.2 = Some (data_url data))
            ∨ (BrokenImage ∈ stream_fragments reads ∧ shown.2 = None))
    (DOM.rendered_slides (page final)).
Proof.
  simpl. destruct (stream_loop_segments d reads)
    as (segs & left & Hcut & Hsegs & _ & Hshown & _). simpl in Hshown.
  rewrite Hshown, Hcut. apply Forall_fmap, Forall_forall.
  intros seg Hseg. rewrite Forall_forall in Hsegs.
  destruct (Hsegs seg Hseg)
    as [[[_ Himg%bool_decide_eq_true]%andb_true_iff _]%andb_true_iff _].
  destruct Himg as [image Himage]. simpl. rewrite Himage.
  apply last_image_elem_of in Himage.
  assert (∀ f, f ∈ seg → f ∈ concat segs ++ left) as Hin.
  { intros f Hf. apply elem_of_app. left. by apply (elem_of_concat _ seg). }
  destruct image as [data|]; [left; exists data|right]; split; auto.
Qed.


(** ** Reads and chunks the loop gets nothing from *)

Lemma filter_none {A} (p : A → bool) (l : list A) :
  Forall (λ x, p x = false) l → List.filter p l = [].
Proof. induction 1 as [|x l Hx _ IH]; [done|]. simpl. by rewrite Hx. Qed.

(** X5.  A read none of whose pieces between blank lines starts with
    ['data: '] (an empty read, a comment, an event whose first line is
    another field) changes nothing and logs nothing. *)
Theorem read_without_data_line_is_inert `{Runtime} st value :
  Forall (λ piece, JSString.startsWith "data: " piece = false)
    (JSString.split JSString.blank_line (TextDecoder_decode value)) →
  process_read st value = (st, []).
Proof.
  intros Hnone. unfold process_read, lines_of. by rewrite filter_none.
Qed.

Lemma read_without_data_line_is_inert_witness :
  process_read (H := Reference.runtime) Example.after_caption Sample.keep_alive
    = (Example.after_caption, []).
Proof.
  apply (read_without_data_line_is_inert (H := Reference.runtime)
           Example.after_caption Sample.keep_alive).
  vm_compute. repeat constructor.
Defined.

Lemma process_chunk_candidates `{Runtime} st candidates :
  process_chunk st (candidates_chunk candidates) =
    for_of process_candidate st candidates.
Proof. done. Qed.

(** X6.  An exception does not undo what the chunk has done so far: when a
    candidate without content follows candidates that were processed
    normally, the chunk ends in the [catch] clause with the state those
    candidates left, their slides included, and the candidates after it are
    not looked at. *)
Theorem exception_keeps_earlier_parts `{Runtime} st good bad rest :
  (process_chunk st (candidates_chunk good)).2 = None →
  JS.get (Some bad) "content" = Normal undefined →
  process_chunk st (candidates_chunk (good ++ bad :: rest)) =
    ((process_chunk st (candidates_chunk good)).1, Some TypeError).
Proof.
  rewrite !process_chunk_candidates, for_of_app.
  destruct (for_of process_candidate st good) as [st' [e|]]; [done|].
  intros _ Hbad. simpl. unfold process_candidate. by rewrite Hbad.
Qed.

Lemma exception_keeps_earlier_parts_witness :
  process_chunk (H := Reference.runtime) Example.after_image
    (candidates_chunk
       ([Sample.candidate_of [Example.text_part "Once"]]
          ++ Sample.blocked :: [Sample.candidate_of [Example.text_part "Twice"]]))
  = ((process_chunk (H := Reference.runtime) Example.after_image
        (candidates_chunk [Sample.candidate_of [Example.text_part "Once"]])).1,
     Some TypeError)
  ∧ length (slideshow (page (process_chunk (H := Reference.runtime)
              Example.after_image
              (candidates_chunk
                 [Sample.candidate_of [Example.text_part "Once"]])).1)) = 1%nat.
Proof.
  split; [|reflexivity].
  exact (exception_keeps_earlier_parts (H := Reference.runtime)
           Example.after_image
           [Sample.candidate_of [Example.text_part "Once"]]
           Sample.blocked
           [Sample.candidate_of [Example.text_part "Twice"]]
           eq_refl eq_refl).
Defined.

(** ** More of the proxy *)

(** X7.  A failure of the model's stream after the call has returned is not
    answered with 500: for a truthy message that converts to a string, the
    answer is the 200 stream, into which the chunks yielded before the
    failure have been enqueued, and which is errored with what was thrown
    instead of being closed. *)
Theorem stream_failure_errors_the_stream `{Runtime}
    api req parsed message prompt result error :
  method req = "POST" →
  json_body req = Returns parsed →
  JS.get (Some parsed) "message" = Normal (Some message) →
  JS.ToBoolean (Some message) = true →
  JS.ToString message = Normal prompt →
  api (call_for prompt) = Returns result →
  failure result = Some error →
  handler api req =
    ({| status := 200;
        headers := [("Content-Type", "text/event-stream");
                    ("Cache-Control", "no-cache");
                    ("Connection", "keep-alive")];
        body := StreamBody (proxy_events (yielded result)) (Errored error) |},
     [call_for prompt]).
Proof.
  intros Hmethod Hbody Hmessage Htruthy Hprompt Hcall Hfail.
  unfold handler, destructure_message, event_stream.
  rewrite Hmethod, Hbody, Hmessage, Htruthy. simpl. rewrite Hprompt.
  fold (call_for prompt). by rewrite Hcall, Hfail.
Qed.

Lemma stream_failure_errors_the_stream_witness :
  handler (H := Reference.runtime) Sample.failing_midway (Example.ask "gravity") =
    ({| status := 200;
        headers := [("Content-Type", "text/event-stream");
                    ("Cache-Control", "no-cache");
                    ("Connection", "keep-alive")];
        body := StreamBody
                  (proxy_events (H := Reference.runtime)
                     [Example.chunk_of [Example.text_part "Once"]])
                  (Errored (ThrownError "connection reset")) |},
     [call_for "gravity"]).
Proof.
  exact (stream_failure_errors_the_stream (H := Reference.runtime)
           Sample.failing_midway (Example.ask "gravity")
           (JObj [("message", JStr "gravity")]) (JStr "gravity") "gravity"
           {| yielded := [Example.chunk_of [Example.text_part "Once"]];
              failure := Some (ThrownError "connection reset") |}
           (ThrownError "connection reset")
           eq_refl eq_refl eq_refl eq_refl eq_refl eq_refl eq_refl).
Defined.

(** X8.  Whatever the request and whatever the model API does, the handler
    calls the API at most once, and only for a POST whose body has a truthy
    [message] that converts to a string; its answer has status 200, 400,
    405 or 500; and the answer is 200 exactly when that one call returned,
    in which case the body is the event stream of its result. *)
Theorem handler_calls_at_most_once `{Runtime} api req :
  ((handler api req).2 = []
   ∨ ∃ parsed message prompt,
       (handler api req).2 = [call_for prompt]
       ∧ method req = "POST"
       ∧ json_body req = Returns parsed
       ∧ JS.get (Some parsed) "message" = Normal (Some message)
       ∧ JS.ToBoolean (Some message) = true
       ∧ JS.ToString message = Normal prompt)
  ∧ status (handler api req).1 ∈ [200; 400; 405; 500]%nat
  ∧ (status (handler api req).1 = 200%nat ↔
     ∃ prompt result,
       (handler api req).2 = [call_for prompt]
       ∧ api (call_for prompt) = Returns result
       ∧ body (handler api req).1 = event_stream result).
Proof.
  unfold handler, destructure_message.
  destruct (String.eqb_spec (method req) "POST") as [Hmethod|Hmethod]; cbn [negb].
  2: { split_and!; [by left|set_solver|]. split; [done|]. by intros (? & ? & ? & _). }
  destruct (json_body req) as [parsed|error] eqn:Hbody.
  2: { split_and!; [by left|set_solver|]. split; [done|]. by intros (? & ? & ? & _). }
  destruct (JS.get (Some parsed) "message") as [message|e] eqn:Hmessage.
  2: { split_and!; [by left|set_solver|]. split; [done|]. by intros (? & ? & ? & _). }
  destruct (JS.ToBoolean message) eqn:Htruthy; cbn [negb].
  2: { split_and!; [by left|set_solver|]. split; [done|]. by intros (? & ? & ? & _). }
  destruct message as [message|]; [|done]. cbn [JS.ToString_value].
  destruct (JS.ToString message) as [prompt|e] eqn:Hprompt.
  2: { split_and!; [by left|set_solver|]. split; [done|]. by intros (? & ? & ? & _). }
  fold (call_for prompt).
  destruct (api (call_for prompt)) as [result|error] eqn:Hcall; cbn [fst snd status body].
  - split_and!; [right; by exists parsed, message, prompt|set_solver|].
    split; [|done]. intros _. by exists prompt, result.
  - split_and!; [right; by exists parsed, message, prompt|set_solver|].
    split; [done|]. intros (m & r & Hcalls & Hr & _). congruence.
Qed.

(** X9.  See [handler_rejects_without_calling]: any method but POST is
    answered 405, a POST whose body is not [null] and has no truthy
    [message] is answered 400, and the model API is called in neither
    case. *)
Lemma handler_rejects_without_calling_witness :
  handler (H := Reference.runtime) Example.refusing Sample.get_request =
    ({| status := 405; headers := []; body := TextBody "Method Not Allowed" |}, [])
  ∧ handler (H := Reference.runtime) Example.refusing Sample.empty_object =
      ({| status := 400; headers := [];
          body := TextBody "Missing message in request body" |}, []).
Proof.
  pose proof (handler_rejects_without_calling (H := Reference.runtime)
                Example.refusing Sample.get_request) as [Hget _].
  pose proof (handler_rejects_without_calling (H := Reference.runtime)
                Example.refusing Sample.empty_object) as [_ Hpost].
  split.
  - apply Hget. done.
  - by apply (Hpost (JObj []) undefined).
Defined.

(** ** A run of [generate] *)

Section Generate.
Context `{Runtime} `{Platform}.

(** What the slideshow shows after the loop depends on the reads alone. *)
Lemma rendered_from_reads d reads :
  DOM.rendered_slides (page (stream_loop (initial_state d) reads).1) =
    slide_of <$> (segments [] (stream_fragments reads)).1.
Proof.
  rewrite stream_loop_spec.
  by destruct (assembly_segments (stream_fragments reads) (initial_state d) [])
    as [_ ->]; [apply wf_initial|done|].
Qed.

Lemma slideshow_empty_from_reads d reads :
  slideshow (page (stream_loop (initial_state d) reads).1) = [] ↔
  (segments [] (stream_fragments reads)).1 = [].
Proof.
  pose proof (rendered_from_reads d reads) as Hshown.
  unfold DOM.rendered_slides in Hshown. split; intros Hnil.
  - rewrite Hnil in Hshown. symmetry in Hshown. by apply fmap_nil_inv in Hshown.
  - rewrite Hnil in Hshown. by apply fmap_nil_inv in Hshown.
Qed.

End Generate.

(** X10.  However the request ends, [generate] leaves the prompt enabled,
    focused and empty and the output holding the new turn alone; the error
    box is either hidden and empty or shows a message; and there is at most
    one download button, present exactly when the run ended without an
    error and left at least one slide. *)
Theorem generate_always_settles `{Runtime} `{Platform} message fetch u :
  let u' := generate message fetch u in
  input_disabled u' = false ∧ input_focused u' = true ∧ input_value u' = ""
  ∧ output u' = [marked_parse message]
  ∧ (error_hidden u' = true → error_text u' = "")
  ∧ (actions u' = [] ∨ actions u' = [UI.downloadBtn])
  ∧ (actions u' = [UI.downloadBtn] ↔
     error_hidden u' = true ∧ slideshow (dom u') ≠ []).
Proof.
  simpl. unfold generate, generate_try.
  destruct (fetch _) as [response|e]; simpl.
  2: { split_and!; try done; [by left|]. split; [done|by intros [? _]]. }
  destruct (Fetch.ok response); simpl.
  2: { split_and!; try done; [by left|]. split; [done|by intros [? _]]. }
  destruct (Fetch.body_of response) as [b|]; simpl.
  2: { split_and!; try done; [by left|]. split; [done|by intros [? _]]. }
  destruct (Fetch.read_failure b); simpl.
  { split_and!; try done; [by left|]. split; [done|by intros [? _]]. }
  destruct (slideshow _) as [|s l] eqn:Hslides; simpl.
  - split_and!; try done; [by left|]. rewrite Hslides.
    split; [done|by intros [_ ?]].
  - split_and!; try done; [by right|]. by rewrite Hslides.
Qed.
(** X11.  When the response is not ok and its body is the JSON text of a
    value other than [null], the error box shows that value's
    [error.message], converted to a string, if it is truthy, and the line
    made of the status and the status text if it is not; when the truthy
    message cannot be converted to a string, the box shows the message of
    the [TypeError] that [new Error] throws.  There are no slides and no
    button. *)
Theorem failed_response_shows_its_message `{Runtime} `{Platform}
    message fetch u response err error m :
  fetch (request_for message) = Returns response →
  Fetch.ok response = false →
  response_json response = Returns err →
  JS.get (Some err) "error" = Normal error →
  JS.get_opt error "message" = Normal m →
  let u' := generate message fetch u in
  error_text u' =
    "Something went wrong: " +:+
      (if JS.ToBoolean m then
         match JS.ToString_value m with
         | Normal shown => shown
         | Throw _ => cannot_convert_message
         end
       else "Request failed with status " +:+ pretty (Fetch.status response)
              +:+ " - " +:+ Fetch.statusText response)
  ∧ error_hidden u' = false ∧ actions u' = [] ∧ slideshow (dom u') = [].
Proof.
  intros Hfetch Hok Hjson Herror Hmessage. simpl.
  unfold generate, generate_try. rewrite Hfetch, Hok. simpl.
  unfold failed_response, new_Error. rewrite Hjson, Herror, Hmessage.
  destruct m as [m|]; [|done].
  destruct (JS.ToBoolean (Some m)); [|done]. simpl.
  by destruct (JS.ToString m).
Qed.

Lemma failed_response_shows_its_message_witness :
  error_text (generate (H := Reference.runtime) (H0 := Sample.browser)
                "gravity" (λ _, Returns Sample.refused) Sample.page0)
    = "Something went wrong: quota exceeded".
Proof.
  exact (proj1 (failed_response_shows_its_message
                  (H := Reference.runtime) (H0 := Sample.browser)
                  "gravity" (λ _, Returns Sample.refused) Sample.page0
                  Sample.refused
                  (JObj [("error", JObj [("message", JStr "quota exceeded")])])
                  (Some (JObj [("message", JStr "quota exceeded")]))
                  (Some (JStr "quota exceeded"))
                  eq_refl eq_refl eq_refl eq_refl eq_refl)).
Defined.

(** An error message that cannot be converted to a string: the box shows
    the message of the [TypeError]. *)
Example run_odd_error :
  error_text (generate (H := Reference.runtime) (H0 := Sample.browser)
                "gravity" (λ _, Returns Sample.odd_error) Sample.page0)
    = "Something went wrong: Cannot convert object to primitive value".
Proof. by vm_compute. Qed.

(** X12.  When the response is not ok and its body, which is not null, is
    not the JSON text of a value other than [null], the [catch] clause of
    line 115 reads the body a second time, which throws: the error box
    shows the message of that [TypeError], and the text of the body is not
    shown.  The plain-text answers of the proxy (400 and 405) end this
    way. *)
Theorem unparsable_error_body_is_not_shown `{Runtime} `{Platform}
    message fetch u response b :
  fetch (request_for message) = Returns response →
  Fetch.ok response = false →
  Fetch.body_of response = Some b →
  ((∃ e, response_json response = Throws e)
   ∨ response_json response = Returns JNull) →
  let u' := generate message fetch u in
  error_text u' = "Something went wrong: " +:+ body_used_message
  ∧ error_hidden u' = false.
Proof.
  intros Hfetch Hok Hbody Hjson. simpl.
  unfold generate, generate_try. rewrite Hfetch, Hok. simpl.
  unfold failed_response, response_text_again. rewrite Hbody.
  by destruct Hjson as [[e ->]| ->].
Qed.

Lemma unparsable_error_body_is_not_shown_witness :
  error_text (generate (H := Reference.runtime) (H0 := Sample.browser)
                "gravity" (λ _, Returns Sample.missing_message) Sample.page0)
    = "Something went wrong: Body has already been consumed.".
Proof.
  refine (proj1 (unparsable_error_body_is_not_shown
                   (H := Reference.runtime) (H0 := Sample.browser)
                   "gravity" (λ _, Returns Sample.missing_message) Sample.page0
                   Sample.missing_message
                   {| Fetch.delivered :=
                        [Reference.UTF8.encode "Missing message in request body"];
                      Fetch.read_failure := None |}
                   eq_refl eq_refl eq_refl _)).
  left. eexists. reflexivity.
Defined.

Lemma generate_on_stream `{Runtime} `{Platform}
    message fetch u response b :
  fetch (request_for message) = Returns response →
  Fetch.ok response = true →
  Fetch.body_of response = Some b →
  let u' := generate message fetch u in
  let slides := slide_of <$> (segments [] (stream_fragments (Fetch.delivered b))).1 in
  DOM.rendered_slides (dom u') = slides
  ∧ match Fetch.read_failure b with
    | Some e =>
        error_text u' = "Something went wrong: " +:+ e
        ∧ error_hidden u' = false ∧ actions u' = []
    | None =>
        error_text u' = "" ∧ error_hidden u' = true
        ∧ actions u' = match slides with
                       | [] => []
                       | _ :: _ => [UI.downloadBtn]
                       end
    end.
Proof.
  intros Hfetch Hok Hbody. simpl.
  unfold generate, generate_try. rewrite Hfetch, Hok, Hbody. simpl.
  pose proof (rendered_from_reads (dom u) (Fetch.delivered b)) as Hshown.
  change (initial_state (dom u))
    with {| text := ""; img := None; page := clearUI (dom u) |} in Hshown.
  set (st := (stream_loop _ (Fetch.delivered b)).1) in *.
  destruct (Fetch.read_failure b) as [e|]; simpl; [done|].
  unfold DOM.rendered_slides in *. rewrite <- Hshown.
  by destruct (slideshow (page st)) as [|s l] eqn:Hslides; simpl; rewrite Hslides.
Qed.

(** X13.  When the response is ok and has a body, the slides shown at the
    end are those of the reads delivered, cut into runs as by the loop,
    whether the stream ends or breaks.  If it breaks, the error box shows
    the reader's error and no download button is made, slides or not; if
    it ends, no error is shown and the button is there exactly when there
    is a slide. *)
Theorem generate_shows_the_stream `{Runtime} `{Platform}
    message fetch u response b :
  fetch (request_for message) = Returns response →
  Fetch.ok response = true →
  Fetch.body_of response = Some b →
  let u' := generate message fetch u in
  let slides := slide_of <$> (segments [] (stream_fragments (Fetch.delivered b))).1 in
  DOM.rendered_slides (dom u') = slides
  ∧ match Fetch.read_failure b with
    | Some e =>
        error_text u' = "Something went wrong: " +:+ e
        ∧ error_hidden u' = false ∧ actions u' = []
    | None =>
        error_text u' = "" ∧ error_hidden u' = true
        ∧ actions u' = match slides with
                       | [] => []
                       | _ :: _ => [UI.downloadBtn]
                       end
    end.
Proof. apply generate_on_stream. Qed.

Lemma generate_shows_the_stream_witness :
  let u' := generate (H := Reference.runtime) (H0 := Sample.browser)
              "gravity" (λ _, Returns Sample.broken_stream) Sample.page0 in
  DOM.rendered_slides (dom u') =
    [(Reference.paragraph "Once", Some "data:image/png;base64,AAAA")]
  ∧ error_text u' = "Something went wrong: network error"
  ∧ error_hidden u' = false ∧ actions u' = [].
Proof.
  exact (generate_shows_the_stream
           (H := Reference.runtime) (H0 := Sample.browser)
           "gravity" (λ _, Returns Sample.broken_stream) Sample.page0
           Sample.broken_stream
           {| Fetch.delivered := Example.whole_read;
              Fetch.read_failure := Some "network error" |}
           eq_refl eq_refl eq_refl).
Defined.

(** X14.  A run of [generate] starts from a clean page: what the user sees
    at its end does not depend on what the page held before, slides,
    turns, buttons, error or prompt. *)
Theorem generate_starts_clean `{Runtime} `{Platform} message fetch u1 u2 :
  visible (generate message fetch u1) = visible (generate message fetch u2).
Proof.
  unfold generate, generate_try.
  destruct (fetch _) as [response|e]; [|done].
  destruct (Fetch.ok response); [|done]. simpl.
  destruct (Fetch.body_of response) as [b|]; [|done]. simpl.
  pose proof (rendered_from_reads (dom u1) (Fetch.delivered b)) as Hshown1.
  pose proof (rendered_from_reads (dom u2) (Fetch.delivered b)) as Hshown2.
  pose proof (reachable_hidden _ _
    (reachable_stream_loop (dom u1) _ (Fetch.delivered b) (reach_start _)))
    as Hhidden1.
  pose proof (reachable_hidden _ _
    (reachable_stream_loop (dom u2) _ (Fetch.delivered b) (reach_start _)))
    as Hhidden2.
  pose proof (slideshow_empty_from_reads (dom u1) (Fetch.delivered b)) as Hempty1.
  pose proof (slideshow_empty_from_reads (dom u2) (Fetch.delivered b)) as Hempty2.
  change (initial_state (dom u1))
    with {| text := ""; img := None; page := clearUI (dom u1) |} in *.
  change (initial_state (dom u2))
    with {| text := ""; img := None; page := clearUI (dom u2) |} in *.
  set (st1 := (stream_loop {| text := ""; img := None; page := clearUI (dom u1) |}
                 (Fetch.delivered b)).1) in *.
  set (st2 := (stream_loop {| text := ""; img := None; page := clearUI (dom u2) |}
                 (Fetch.delivered b)).1) in *.
  assert (slideshow_hidden (page st1) = slideshow_hidden (page st2)) as Hhidden.
  { destruct (slideshow_hidden (page st1)) eqn:E1,
             (slideshow_hidden (page st2)) eqn:E2; try done.
    - destruct Hhidden1 as [Hnil _]. specialize (Hnil eq_refl).
      apply Hempty1, Hempty2, Hhidden2 in Hnil. congruence.
    - destruct Hhidden2 as [Hnil _]. specialize (Hnil eq_refl).
      apply Hempty2, Hempty1, Hhidden1 in Hnil. congruence. }
  assert (slideshow (page st1) = [] ↔ slideshow (page st2) = []) as Hempty.
  { by rewrite Hempty1, Hempty2. }
  unfold visible.
  destruct (Fetch.read_failure b) as [e|]; simpl.
  - by rewrite Hshown1, Hshown2, Hhidden.
  - destruct (slideshow (page st1)) as [|s1 l1] eqn:Hs1,
             (slideshow (page st2)) as [|s2 l2] eqn:Hs2; simpl.
    + by rewrite Hshown1, Hshown2, Hhidden.
    + destruct Hempty as [Hnil _]. by specialize (Hnil eq_refl).
    + destruct Hempty as [_ Hnil]. by specialize (Hnil eq_refl).
    + by rewrite Hshown1, Hshown2, Hhidden.
Qed.

(** ** The page and the proxy together *)

Section EndToEnd.
Context `{Runtime} `{Platform}.

Lemma proxy_events_singletons chunks :
  proxy_events chunks = whole_events <$> ((λ chunk, [chunk]) <$> chunks).
Proof.
  induction chunks as [|chunk chunks IH]; [done|].
  rewrite !fmap_cons, <- IH. unfold proxy_events, whole_events. simpl.
  by rewrite app_nil_r.
Qed.

Lemma concat_singletons {A} (l : list A) : concat ((λ x, [x]) <$> l) = l.
Proof. induction l as [|x l IH]; [done|]. rewrite fmap_cons. simpl. by f_equal. Qed.

(** The events the proxy writes, read one by one, give the chunks back. *)
Lemma parsed_proxy_events chunks :
  Forall (λ chunk,
            occurs JSString.LF (JSON_stringify chunk) = false
            ∧ JSON_parse (JSON_stringify chunk) = Some chunk
            ∧ TextDecoder_decode (TextEncoder_encode (sse_event chunk))
              = sse_event chunk) chunks →
  parsed_chunks (proxy_events chunks) = chunks.
Proof.
  intros Hchunks. unfold parsed_chunks.
  rewrite proxy_events_singletons, payloads_whole_events.
  - rewrite concat_singletons.
    apply omap_parse_stringify. eapply Forall_impl; [done|]. by intros ? (_ & ? & _).
  - rewrite concat_singletons. eapply Forall_impl; [done|]. by intros ? (? & _).
  - apply Forall_fmap. eapply Forall_impl; [done|].
    intros chunk (_ & _ & Hdecode). unfold whole_events, proxy_events. simpl.
    by rewrite app_nil_r, append_nil_r.
Qed.

Lemma received_request message :
  JSON_parse (TextDecoder_decode (TextEncoder_encode
    (JSON_stringify (JObj [("message", JStr message)]))))
    = Some (JObj [("message", JStr message)]) →
  received (request_for message) =
    {| method := "POST"; json_body := Returns (JObj [("message", JStr message)]) |}.
Proof. intros Hparse. unfold received, request_for. simpl. by rewrite Hparse. Qed.

Lemma truthy_message message :
  message ≠ "" → JS.ToBoolean (Some (JStr message)) = true.
Proof. intros Hne. simpl. by apply negb_true_iff, String.eqb_neq. Qed.

(** The handler on the request of the page. *)
Lemma handler_on_message api message :
  message ≠ "" →
  handler api {| method := "POST";
                 json_body := Returns (JObj [("message", JStr message)]) |} =
    match api (call_for message) with
    | Returns result =>
        ({| status := 200;
            headers := [("Content-Type", "text/event-stream");
                        ("Cache-Control", "no-cache");
                        ("Connection", "keep-alive")];
            body := event_stream result |}, [call_for message])
    | Throws error => (error_response error, [call_for message])
    end.
Proof.
  intros Hne. unfold handler, destructure_message. simpl.
  destruct (String.eqb_spec message "") as [|_]; [done|]. simpl.
  fold (call_for message). by destruct (api _).
Qed.


End EndToEnd.

(** X15.  The page and the proxy together, when the model API returns a
    stream that ends normally: for a message that is not empty, the model is
    called once with the message followed by the additional instructions,
    and the page ends up showing the slides of the chunks the model yielded,
    cut into runs as by the loop, and no error.  The library functions are
    taken to give back what was written: the request body and every chunk
    parse back from their serialisation, which holds no line feed, and the
    decoder gives back each encoded text. *)
Theorem page_shows_what_the_model_streams `{Runtime} `{Platform}
    api message chunks u :
  message ≠ "" →
  JSON_parse (TextDecoder_decode (TextEncoder_encode
    (JSON_stringify (JObj [("message", JStr message)]))))
    = Some (JObj [("message", JStr message)]) →
  api (call_for message) = Returns {| yielded := chunks; failure := None |} →
  Forall (λ chunk,
            occurs JSString.LF (JSON_stringify chunk) = false
            ∧ JSON_parse (JSON_stringify chunk) = Some chunk
            ∧ TextDecoder_decode (TextEncoder_encode (sse_event chunk))
              = sse_event chunk) chunks →
  let u' := generate message (through_proxy api) u in
  (handler api (received (request_for message))).2 = [call_for message]
  ∧ DOM.rendered_slides (dom u') =
      slide_of <$> (segments [] (chunks_fragments chunks)).1
  ∧ error_hidden u' = true.
Proof.
  intros Hne Hrequest Hcall Hchunks. simpl.
  pose proof (handler_on_message api message Hne) as Hhandler.
  rewrite Hcall in Hhandler. unfold event_stream in Hhandler. simpl in Hhandler.
  rewrite received_request by done. rewrite Hhandler. split; [done|].
  destruct (generate_on_stream message (through_proxy api) u
              (answered (handler api (received (request_for message))).1)
              {| Fetch.delivered := proxy_events chunks;
                 Fetch.read_failure := None |}) as [Hshown Hrest].
  - done.
  - by rewrite received_request, Hhandler.
  - by rewrite received_request, Hhandler.
  - simpl in Hshown, Hrest. unfold stream_fragments in Hshown.
    rewrite parsed_proxy_events in Hshown by done.
    split; [done|]. by destruct Hrest as (_ & ? & _).
Qed.

Lemma page_shows_what_the_model_streams_witness :
  let u' := generate (H := Reference.runtime) (H0 := Sample.browser)
              "gravity"
              (through_proxy (H := Reference.runtime) (H0 := Sample.browser)
                 Example.two_chunks)
              Sample.page0 in
  (handler (H := Reference.runtime) Example.two_chunks
     (received (H := Reference.runtime) (H0 := Sample.browser)
        (request_for (H := Reference.runtime) "gravity"))).2
    = [call_for "gravity"]
  ∧ DOM.rendered_slides (dom u') =
      [(Reference.paragraph "Once", Some "data:image/png;base64,AAAA")]
  ∧ error_hidden u' = true.
Proof.
  refine (page_shows_what_the_model_streams
            (H := Reference.runtime) (H0 := Sample.browser)
            Example.two_chunks "gravity"
            [Example.chunk_of [Example.text_part "Once"];
             Example.chunk_of [Example.image_part "AAAA"]]
            Sample.page0 _ eq_refl eq_refl _).
  - done.
  - repeat constructor.
Defined.

(** X16.  The page and the proxy together, when the call to the model API
    throws: the error box shows the message of what was thrown (for a value
    that is not an [Error], ['An unknown error occurred']), or, when that
    message is empty, the line made of the status 500 and its status text;
    there is no slide and no button.  The library functions are taken to
    give back the request body and the error body as written. *)
Theorem page_shows_the_model_error `{Runtime} `{Platform} api message error u :
  message ≠ "" →
  JSON_parse (TextDecoder_decode (TextEncoder_encode
    (JSON_stringify (JObj [("message", JStr message)]))))
    = Some (JObj [("message", JStr message)]) →
  api (call_for message) = Throws error →
  JSON_parse (TextDecoder_decode (TextEncoder_encode
    (JSON_stringify (JObj [("error", JObj [("message", JStr (reported error))])]))))
    = Some (JObj [("error", JObj [("message", JStr (reported error))])]) →
  let u' := generate message (through_proxy api) u in
  error_text u' =
    "Something went wrong: " +:+
      (if String.eqb (reported error) ""
       then "Request failed with status 500 - " +:+ reason_phrase 500
       else reported error)
  ∧ error_hidden u' = false ∧ slideshow (dom u') = [] ∧ actions u' = [].
Proof.
  intros Hne Hrequest Hcall Hanswer. simpl.
  pose proof (handler_on_message api message Hne) as Hhandler.
  rewrite Hcall in Hhandler.
  unfold generate, generate_try, through_proxy.
  rewrite received_request by done. rewrite Hhandler.
  unfold error_response, answered. fold (reported error). simpl.
  unfold failed_response, response_json. simpl.
  rewrite app_nil_r, Hanswer. simpl.
  by destruct (String.eqb (reported error) "").
Qed.

Lemma page_shows_the_model_error_witness :
  error_text (generate (H := Reference.runtime) (H0 := Sample.browser)
                "gravity"
                (through_proxy (H := Reference.runtime) (H0 := Sample.browser)
                   Example.refusing)
                Sample.page0)
    = "Something went wrong: quota exceeded".
Proof.
  refine (proj1 (page_shows_the_model_error
                   (H := Reference.runtime) (H0 := Sample.browser)
                   Example.refusing "gravity" (ThrownError "quota exceeded")
                   Sample.page0 _ eq_refl eq_refl eq_refl)).
  done.
Defined.




(** ** The theme *)

Lemma is_dark_applyTheme theme s :
  is_dark (applyTheme theme s) = String.eqb theme "dark".
Proof.
  unfold is_dark, applyTheme. simpl.
  destruct (String.eqb theme "dark").
  - apply bool_decide_eq_true. set_solver.
  - apply bool_decide_eq_false. set_solver.
Qed.

Lemma saved_applyTheme theme s :
  localStorage (applyTheme theme s) !! "theme" = Some theme.
Proof. unfold applyTheme. simpl. by rewrite lookup_insert_eq. Qed.

Lemma load_theme_saved prefersDark classes s theme :
  theme ≠ "" →
  localStorage s !! "theme" = Some theme →
  load_theme prefersDark {| classList := classes; localStorage := localStorage s |}
    = applyTheme theme {| classList := classes; localStorage := localStorage s |}.
Proof.
  intros Hne Hsaved. unfold load_theme. simpl. rewrite Hsaved.
  by destruct (String.eqb_spec theme "").
Qed.

(** X18.  The theme survives a reload.  On a first visit (nothing stored)
    the page is dark exactly when the system prefers dark.  After the page
    has loaded, or after the toggle has been clicked, loading the page again
    with the storage as it is gives the same theme, whatever classes the
    root element starts with and whatever the system prefers by then. *)
Theorem theme_survives_reload :
  (∀ prefersDark s,
     localStorage s !! "theme" = None →
     is_dark (load_theme prefersDark s) = prefersDark)
  ∧ (∀ s' classes prefersDark',
       ((∃ prefersDark s, s' = load_theme prefersDark s)
        ∨ ∃ s, s' = on_theme_toggle s) →
       is_dark (load_theme prefersDark'
                  {| classList := classes; localStorage := localStorage s' |})
         = is_dark s').
Proof.
  split.
  - intros prefersDark s Hnone. unfold load_theme. rewrite Hnone.
    rewrite is_dark_applyTheme. by destruct prefersDark.
  - intros s' classes prefersDark' Hfrom.
    assert (∃ theme s, theme ≠ "" ∧ s' = applyTheme theme s)
      as (theme & s & Hne & ->).
    { destruct Hfrom as [(prefersDark & s & ->)|(s & ->)].
      - unfold load_theme. destruct (localStorage s !! "theme") as [saved|].
        + destruct (String.eqb_spec saved "") as [|Hne]; simpl.
          * exists (if prefersDark then "dark" else "light"), s.
            by destruct prefersDark.
          * by exists saved, s.
        + exists (if prefersDark then "dark" else "light"), s.
          by destruct prefersDark.
      - unfold on_theme_toggle.
        case_decide; simpl; [by exists "light", s|by exists "dark", s]. }
    rewrite (load_theme_saved _ _ _ theme Hne (saved_applyTheme theme s)).
    by rewrite !is_dark_applyTheme.
Qed.

Lemma theme_survives_reload_witness :
  is_dark (load_theme true Sample.first_visit) = true
  ∧ is_dark (load_theme false
               {| classList := ∅;
                  localStorage :=
                    localStorage (on_theme_toggle
                                    (load_theme false Sample.first_visit)) |})
    = is_dark (on_theme_toggle (load_theme false Sample.first_visit)).
Proof.
  split.
  - exact (proj1 theme_survives_reload true Sample.first_visit eq_refl).
  - apply (proj2 theme_survives_reload). right. by eexists.
Defined.

Lemma toggle_twice s :
  classList (on_theme_toggle (on_theme_toggle s)) = classList s.
Proof.
  unfold on_theme_toggle at 2.
  destruct (decide ("dark-theme" ∈ classList s)) as [Hin|Hout]; simpl.
  - unfold on_theme_toggle. rewrite decide_False by (simpl; set_solver). simpl.
    apply set_eq. intros class.
    destruct (decide (class = "dark-theme")) as [->|]; set_solver.
  - unfold on_theme_toggle. rewrite decide_True by (simpl; set_solver). simpl.
    set_solver.
Qed.

(** X19.  The toggle flips the theme and stores the new one; it touches no
    other class and no other key; and clicking it twice gives back the
    class list it started from. *)
Theorem toggle_flips_the_theme s :
  is_dark (on_theme_toggle s) = negb (is_dark s)
  ∧ localStorage (on_theme_toggle s) !! "theme"
      = Some (if is_dark s then "light" else "dark")
  ∧ (∀ class, class ≠ "dark-theme" →
       class ∈ classList (on_theme_toggle s) ↔ class ∈ classList s)
  ∧ (∀ k, k ≠ "theme" →
       localStorage (on_theme_toggle s) !! k = localStorage s !! k)
  ∧ classList (on_theme_toggle (on_theme_toggle s)) = classList s.
Proof.
  split_and!; [| | | |apply toggle_twice];
    unfold on_theme_toggle, is_dark;
    destruct (decide ("dark-theme" ∈ classList s)) as [Hin|Hout];
    rewrite ?(bool_decide_eq_true_2 _ Hin), ?(bool_decide_eq_false_2 _ Hout);
    simpl.
  - apply bool_decide_eq_false. set_solver.
  - apply bool_decide_eq_true. set_solver.
  - by rewrite lookup_insert_eq.
  - by rewrite lookup_insert_eq.
  - intros class Hclass. set_solver.
  - intros class Hclass. set_solver.
  - intros k Hk. rewrite lookup_insert_ne; [done|congruence].
  - intros k Hk. rewrite lookup_insert_ne; [done|congruence].
Qed.
